(** * search-everybody: the per-domain crawl loop of crawler.js

    A shallow embedding of [handleDomain], the per-domain worker of
    [crawlerForDomains], of [normalizeUrl] and of the result set of
    index.js, with the properties of
    the breadth-first traversal: page budget, depth bound, dequeue order,
    link admission, the render fallback and result deduplication.

    Strings are Rocq [string]s (one character per code unit, code units
    below 256); JavaScript integers are [Z].  Everything the crawler obtains
    from outside the repository (the WHATWG [URL] parser, node-fetch, the
    cheerio-based extractor's answer, the Playwright browser) is a field
    of the record [World], so every statement holds for all behaviours of
    the network and of those libraries. *)

From Stdlib Require Import ZArith List String Ascii Bool Lia Sorted.
Import ListNotations.
Open Scope string_scope.
Open Scope list_scope.
Open Scope Z_scope.

(** ** JavaScript string methods used by the crawler *)
Module JsString.

(** [String.prototype.toLowerCase] on one code unit below 256: the
    capital letters are A-Z (65-90) and the Latin-1 capitals 192-214 and
    216-222 (215 is the multiplication sign); each maps to the code unit
    32 above it, every other code unit to itself. *)
Definition lower_ascii (c : ascii) : ascii :=
  let n := nat_of_ascii c in
  if ((Nat.leb 65 n && Nat.leb n 90)
      || (Nat.leb 192 n && Nat.leb n 214)
      || (Nat.leb 216 n && Nat.leb n 222))%bool
  then ascii_of_nat (n + 32) else c.

Fixpoint toLowerCase (s : string) : string :=
  match s with
  | EmptyString => EmptyString
  | String c s' => String (lower_ascii c) (toLowerCase s')
  end.

(** [s.endsWith(suffix)]: some tail of [s] is [suffix]. *)
Fixpoint endsWith (s suffix : string) : bool :=
  (String.eqb s suffix ||
   match s with
   | EmptyString => false
   | String _ s' => endsWith s' suffix
   end)%bool.

(** [s.includes(sub)]: [sub] starts at some position of [s]. *)
Fixpoint includes (s sub : string) : bool :=
  (String.prefix sub s ||
   match s with
   | EmptyString => false
   | String _ s' => includes s' sub
   end)%bool.

(** [s.split('#')[0]]: the part of [s] before its first '#'. *)
Fixpoint before_hash (s : string) : string :=
  match s with
  | EmptyString => EmptyString
  | String c s' => if Ascii.eqb c "#"%char then EmptyString
                   else String c (before_hash s')
  end.

(** [s.length] as a JavaScript number. *)
Definition length (s : string) : Z := Z.of_nat (String.length s).

End JsString.

(** ** The JavaScript [Set] of strings

    Insertion-ordered; [add] of a member changes nothing. *)
Module JsSet.

Definition t := list string.

Definition empty : t := [].

Fixpoint has (s : t) (x : string) : bool :=
  match s with
  | [] => false
  | y :: s' => (String.eqb y x || has s' x)%bool
  end.

Definition add (s : t) (x : string) : t :=
  if has s x then s else s ++ [x].

Definition size (s : t) : Z := Z.of_nat (List.length s).

End JsSet.

(** ** Results of operations that may throw *)
Inductive result (A : Type) : Type :=
| Ok (a : A)
| Throw (message : string).
Arguments Ok {A} a.
Arguments Throw {A} message.

(** ** Data model *)

(** A [URL] object, as far as the crawler reads it. *)
Record Url := mkUrl {
  protocol : string;
  hostname : string;
  href : string
}.

(** A node-fetch response, as far as the crawler reads it:
    [r.ok], [r.status], [r.headers.get('content-type')] ([None] is the
    JavaScript [null]) and the outcome of [r.text()]. *)
Record Response := mkResponse {
  ok : bool;
  status : Z;
  content_type : option string;
  text : result string
}.

(** What one use of the browser does for a URL: the outcome of each
    Playwright call of the render block, in the order of the calls. *)
Record Render := mkRender {
  newContext : result unit;
  newPage : result unit;
  goto : result unit;
  content : result string;
  page_close : result unit;
  context_close : result unit
}.

(** The launched browser ([None] is [browser = null]). *)
Definition Browser := option (string -> Render).

(** Everything outside the repository, as functions of the request.
    Within one traversal a URL is requested and rendered at most once, so
    an answer that depends on the URL alone loses nothing.
    [new_URL input None] is
    [new URL(input)], [new_URL input (Some base)] is [new URL(input, base)];
    [None] as a result means the constructor throws.
    [extractImagesAndLinks html baseUrl] is the pair of arrays
    [(images, links)] that the cheerio queries of [extractImagesAndLinks]
    return. *)
Record World := mkWorld {
  new_URL : string -> option string -> option Url;
  fetch : string -> result Response;
  extractImagesAndLinks : string -> string -> list string * list string
}.

(** The options of [crawlerForDomains] that [handleDomain] reads. *)
Record Options := mkOptions {
  maxPagesPerDomain : Z;
  maxDepth : Z
}.

(** An element of [toVisit]. *)
Record FrontierEntry := mkEntry {
  url : string;
  depth : Z
}.

(** The objects passed to [onEvent] by [handleDomain]; each constructor
    stands for one message template, with the values interpolated in it. *)
Inductive Event : Type :=
| Progress (host url : string) (depth : Z)            (* type 'progress' *)
| WarnHttp (host url : string) (status : Z)           (* type 'warn', HTTP status *)
| WarnFetchError (host url message : string)          (* type 'warn', fetch error *)
| InfoRendered (host url : string)                    (* type 'info', rendered by browser *)
| WarnRenderFailed (host message : string)            (* type 'warn', browser render failed *)
| DomainProgress (domain : string) (pagesVisited : Z) (* type 'domain-progress' *)
| DomainDone (domain : string).                       (* type 'domain-done'; the
                                                         job-wide counter is left out *)

(** The Playwright calls that returned normally. *)
Inductive BrowserOp : Type :=
| NewContext | NewPage | Goto | Content | PageClose | ContextClose.

(** What [handleDomain] does to the outside and to its queue, in the
    order in which it happens. *)
Inductive Effect : Type :=
| EDequeue (e : FrontierEntry)     (* toVisit.shift() *)
| EEvent (ev : Event)              (* onEvent(ev) *)
| EFetch (fetchUrl : string)       (* fetch(fetchUrl, ...) *)
| EBrowser (op : BrowserOp)        (* a browser call that returned *)
| EFoundImage (imgUrl : string)    (* onFoundImage(imgUrl) *)
| EEnqueue (e : FrontierEntry).    (* toVisit.push(e) *)

(** The local variables of [handleDomain]. *)
Record State := mkState {
  seen : JsSet.t;
  toVisit : list FrontierEntry;
  pagesVisited : Z
}.

(** ** Code that may throw and that logs what it does

    The two [try] blocks of the loop body assign the local [html] and call
    [onEvent]; an exception leaves the assignments and calls made before
    it in place.  [Js A] is such a computation over the pair
    ([html], effects so far). *)
Record Locals := mkLocals {
  html : option string;      (* [None] is [null] *)
  log : list Effect
}.

Definition Js (A : Type) : Type := Locals -> result A * Locals.

Definition ret {A : Type} (a : A) : Js A := fun l => (Ok a, l).

Definition bind {A B : Type} (m : Js A) (k : A -> Js B) : Js B :=
  fun l => match m l with
           | (Ok a, l') => k a l'
           | (Throw e, l') => (Throw e, l')
           end.

(** [await] of a call into the outside world. *)
Definition await {A : Type} (r : result A) : Js A := fun l => (r, l).

Definition emit (e : Effect) : Js unit :=
  fun l => (Ok tt, mkLocals (html l) (log l ++ [e])).

Definition set_html (h : option string) : Js unit :=
  fun l => (Ok tt, mkLocals h (log l)).

(** [try { body } catch (e) { handler e.message }] *)
Definition try_catch (body : Js unit) (handler : string -> Js unit) : Js unit :=
  fun l => match body l with
           | (Ok a, l') => (Ok a, l')
           | (Throw e, l') => handler e l'
           end.

(** [promise.catch(() => {})] *)
Definition catch_ignore (m : Js unit) : Js unit :=
  try_catch m (fun _ => ret tt).

Declare Scope js_scope.
Delimit Scope js_scope with js.
Notation "x <- m ;; k" := (bind m (fun x => k))
  (at level 61, m at next level, right associativity) : js_scope.
Notation "m ;;; k" := (bind m (fun _ => k))
  (at level 61, right associativity) : js_scope.

(** JavaScript truthiness of [html]: [!html] holds of [null] and of the
    empty string. *)
Definition falsy (h : option string) : bool :=
  match h with
  | None => true
  | Some s => String.eqb s ""
  end.

(** [!html || html.length < 50] *)
Definition needs_render (h : option string) : bool :=
  (falsy h ||
   match h with
   | None => false
   | Some s => JsString.length s <? 50
   end)%bool.

(** Projections of a log of effects. *)
Definition dequeued (l : list Effect) : list FrontierEntry :=
  flat_map (fun x => match x with EDequeue e => [e] | _ => [] end) l.

Definition enqueued (l : list Effect) : list FrontierEntry :=
  flat_map (fun x => match x with EEnqueue e => [e] | _ => [] end) l.

Definition events (l : list Effect) : list Event :=
  flat_map (fun x => match x with EEvent e => [e] | _ => [] end) l.

Definition fetched (l : list Effect) : list string :=
  flat_map (fun x => match x with EFetch u => [u] | _ => [] end) l.

Definition found_images (l : list Effect) : list string :=
  flat_map (fun x => match x with EFoundImage u => [u] | _ => [] end) l.

Definition browser_ops (l : list Effect) : list BrowserOp :=
  flat_map (fun x => match x with EBrowser o => [o] | _ => [] end) l.

(** The pages that were processed (marked seen and fetched), by their
    'progress' events. *)
Definition processed (l : list Effect) : list string :=
  flat_map (fun x => match x with EEvent (Progress _ u _) => [u] | _ => [] end) l.

Definition domain_progress (l : list Effect) : list Z :=
  flat_map (fun x => match x with EEvent (DomainProgress _ n) => [n] | _ => [] end) l.

(** ** crawler.js *)
Section Crawler.

Variable W : World.
Variable opts : Options.
Variable browser : Browser.

(** [normalizeUrl(u, base)] *)
Definition normalizeUrl (u base : string) : string :=
  match new_URL W u (Some base) with
  | Some x => href x
  | None => u
  end.

Section HandleDomain.

Variable host : string.

(** [fetchUrl]: [url], with [http://] in front when [new URL(url)]
    throws. *)
Definition fetch_url (url : string) : string :=
  match new_URL W url None with
  | Some _ => url
  | None => ("http://" ++ url)%string
  end.

(** The first [try] block of the loop body: plain fetch. *)
Definition fetch_block (url : string) : Js unit :=
  try_catch
    (let fetchUrl := fetch_url url in
     emit (EFetch fetchUrl) ;;;
     r <- await (fetch W fetchUrl) ;;
     let ct := match content_type r with
               | Some c => c
               | None => ""
               end in
     (if ok r then ret tt
      else emit (EEvent (WarnHttp host url (status r)))) ;;;
     if JsString.includes ct "text/html"
     then (t <- await (text r) ;; set_html (Some t))
     else set_html None)%js
    (fun message =>
       emit (EEvent (WarnFetchError host url message)) ;;;
       set_html None)%js.

(** The second [try] block: rendering with the browser. *)
Definition render_block (render : string -> Render) (url : string) : Js unit :=
  try_catch
    (await (newContext (render url)) ;;; emit (EBrowser NewContext) ;;;
     await (newPage (render url)) ;;; emit (EBrowser NewPage) ;;;
     catch_ignore (await (goto (render url)) ;;; emit (EBrowser Goto)) ;;;
     c <- await (content (render url)) ;;
     emit (EBrowser Content) ;;;
     set_html (Some c) ;;;
     await (page_close (render url)) ;;; emit (EBrowser PageClose) ;;;
     await (context_close (render url)) ;;; emit (EBrowser ContextClose) ;;;
     emit (EEvent (InfoRendered host url)))%js
    (fun message => emit (EEvent (WarnRenderFailed host message))).

(** [if ((!html || html.length < 50) && browser) { try ... }] *)
Definition render_fallback (url : string) (l : Locals) : Locals :=
  match browser with
  | Some render =>
      if needs_render (html l) then snd (render_block render url l) else l
  | None => l
  end.

(** The test on one link of the page at [base]: [Some normalized] when the
    link is pushed on [toVisit], [None] when it is skipped. *)
Definition admit_link (seen : JsSet.t) (base link : string) : option string :=
  match new_URL W link (Some base) with
  | None => None      (* ignore invalid url *)
  | Some u =>
      if ((String.eqb (protocol u) "http:" || String.eqb (protocol u) "https:")
          && JsString.endsWith (JsString.toLowerCase (hostname u)) host)%bool
      then
        let normalized := JsString.before_hash (href u) in
        if JsSet.has seen normalized then None else Some normalized
      else None
  end.

(** The entries pushed by [for (const link of links)]. *)
Definition pushed_links (seen : JsSet.t) (base : string) (d : Z)
    (links : list string) : list FrontierEntry :=
  flat_map (fun link => match admit_link seen base link with
                        | Some normalized => [mkEntry normalized (d + 1)]
                        | None => []
                        end) links.

(** The locals after the 'progress' event and the plain fetch of a
    dequeued entry; [html] starts as [null]. *)
Definition plain_fetch (e : FrontierEntry) : Locals :=
  snd (fetch_block (url e)
         (mkLocals None [EDequeue e; EEvent (Progress host (url e) (depth e))])).

(** The condition of the [while]. *)
Definition loop_cond (st : State) : bool :=
  (negb (Z.of_nat (List.length (toVisit st)) =? 0)
   && (pagesVisited st <? maxPagesPerDomain opts))%bool.

(** One run of the body of the [while]. *)
Definition iteration (st : State) : State * list Effect :=
  match toVisit st with
  | [] => (st, [])                    (* excluded by [loop_cond] *)
  | e :: rest =>
      if JsSet.has (seen st) (url e)
      then (mkState (seen st) rest (pagesVisited st), [EDequeue e])
      else
        let seen' := JsSet.add (seen st) (url e) in
        let l1 := plain_fetch e in
        let l2 := render_fallback (url e) l1 in
        match html l2 with
        | None => (mkState seen' rest (pagesVisited st + 1), log l2)
        | Some h =>
            if falsy (Some h)
            then (mkState seen' rest (pagesVisited st + 1), log l2)
            else
              let '(images, links) := extractImagesAndLinks W h (url e) in
              let found := map (fun img => EFoundImage (normalizeUrl img (url e)))
                               images in
              let pushed := if depth e <? maxDepth opts
                            then pushed_links seen' (url e) (depth e) links
                            else [] in
              let pv := pagesVisited st + 1 in
              let periodic := if Z.rem pv 5 =? 0
                              then [EEvent (DomainProgress host pv)]
                              else [] in
              (mkState seen' (rest ++ pushed) pv,
               log l2 ++ found ++ map EEnqueue pushed ++ periodic)
        end
  end.

(** The [while] loop; [None] when [fuel] iterations were not enough. *)
Fixpoint loop (fuel : nat) (st : State) : option (State * list Effect) :=
  if loop_cond st then
    match fuel with
    | O => None
    | S fuel' =>
        let '(st1, l1) := iteration st in
        match loop fuel' st1 with
        | Some (st2, l2) => Some (st2, l1 ++ l2)
        | None => None
        end
    end
  else Some (st, []).

End HandleDomain.

(** The state of [handleDomain(domain)] before its loop. *)
Definition seed (domain : string) : FrontierEntry :=
  mkEntry ("http://" ++ domain)%string 0.

Definition init (domain : string) : State :=
  mkState JsSet.empty [seed domain] 0.

(** [handleDomain(domain)]: the final locals and everything it did. *)
Definition handleDomain (fuel : nat) (domain : string)
  : option (State * list Effect) :=
  let host := JsString.toLowerCase domain in
  match loop host fuel (init domain) with
  | Some (st, l) => Some (st, l ++ [EEvent (DomainDone host)])
  | None => None
  end.

End Crawler.

(** ** index.js: the job's result set *)

(** [onFoundImage: imgUrl => JOBS[jobId].results.add(imgUrl)] *)
Definition onFoundImage (results : JsSet.t) (imgUrl : string) : JsSet.t :=
  JsSet.add results imgUrl.

(** The result set after the given calls of [onFoundImage], from
    [results: new Set()]. *)
Definition results_after (imgUrls : list string) : JsSet.t :=
  fold_left onFoundImage imgUrls JsSet.empty.

(** ** Auxiliary notions for the statements and proofs *)

(** The message with which the render block's [try] body throws, if it
    does: the first failing call among [newContext], [newPage],
    [page.content], [page.close], [context.close] (a failing [goto] is
    swallowed). *)
Definition render_throws (r : Render) : option string :=
  match newContext r with
  | Throw m => Some m
  | Ok _ =>
    match newPage r with
    | Throw m => Some m
    | Ok _ =>
      match content r with
      | Throw m => Some m
      | Ok _ =>
        match page_close r with
        | Throw m => Some m
        | Ok _ =>
          match context_close r with
          | Throw m => Some m
          | Ok _ => None
          end
        end
      end
    end
  end.

(** Whether the response's declared type is HTML:
    [(r.headers.get('content-type') || '').includes('text/html')]. *)
Definition is_html (r : Response) : bool :=
  JsString.includes (match content_type r with
                     | Some c => c
                     | None => ""
                     end) "text/html".


(** Effects that touch neither the queue, nor the result set, nor the
    page counters: what the fetch and render blocks may do. *)
Definition quiet (x : Effect) : bool :=
  match x with
  | EFetch _ | EBrowser _ => true
  | EEvent (WarnHttp _ _ _) | EEvent (WarnFetchError _ _ _)
  | EEvent (InfoRendered _ _) | EEvent (WarnRenderFailed _ _) => true
  | _ => false
  end.

Definition all_quiet (l : list Effect) : Prop := Forall (fun x => quiet x = true) l.

(** The shape of a breadth-first queue whose head is at level [lo] or
    below: levels in non-decreasing order, all within [lo, lo + 1]. *)
Definition bfs_window (lo : Z) (q : list FrontierEntry) : Prop :=
  StronglySorted Z.le (map depth q) /\
  Forall (fun p => lo <= depth p <= lo + 1) q.

Section RunRelation.

Variable W : World.
Variable opts : Options.
Variable browser : Browser.
Variable host : string.

(** [Run st st' l]: from [st] the loop ends in [st'], having done [l]. *)
Inductive Run : State -> State -> list Effect -> Prop :=
| RunDone st :
    loop_cond opts st = false -> Run st st []
| RunStep st st1 l1 st2 l2 :
    loop_cond opts st = true ->
    iteration W opts browser host st = (st1, l1) ->
    Run st1 st2 l2 ->
    Run st st2 (l1 ++ l2).

End RunRelation.

(** ** Concrete webs

    Small webs given by tables, on which the crawler is run below. *)
Module Web.

Fixpoint assoc {A : Type} (t : list (string * A)) (k : string) : option A :=
  match t with
  | [] => None
  | (k', v) :: t' => if String.eqb k' k then Some v else assoc t' k
  end.

(** A world from three tables: what [new URL] returns on the absolute
    URLs in use (it throws on any other input), the response to each
    request (any other request fails), and the extractor's answer on each
    document (nothing on any other). *)
Definition world (urls : list (string * Url))
    (responses : list (string * Response))
    (documents : list (string * (list string * list string))) : World :=
  mkWorld
    (fun input _ => assoc urls input)
    (fun fetchUrl => match assoc responses fetchUrl with
                     | Some r => Ok r
                     | None => Throw "request failed"
                     end)
    (fun html _ => match assoc documents html with
                   | Some d => d
                   | None => ([], [])
                   end).

(** A 200 response with the given content type and body. *)
Definition response (ct body : string) : Response :=
  mkResponse true 200 (Some ct) (Ok body).

(** The defaults of [crawlerForDomains]. *)
Definition defaults : Options := mkOptions 20 2.

(** A browser call that works, and a page the browser renders to [doc]. *)
Definition renders (doc : string) : Render :=
  mkRender (Ok tt) (Ok tt) (Ok tt) (Ok doc) (Ok tt) (Ok tt).

(** *** A page of example.com that links to notexample.com *)
Definition partner_doc : string := "<a href='http://notexample.com/'>partner</a>".

Definition partner_web : World :=
  world
    [("http://example.com",
        mkUrl "http:" "example.com" "http://example.com/");
     ("http://notexample.com/",
        mkUrl "http:" "notexample.com" "http://notexample.com/")]
    [("http://example.com", response "text/html; charset=utf-8" partner_doc)]
    [(partner_doc, ([], ["http://notexample.com/"]))].

(** *** A site of five pages whose fifth page is an image *)
Definition index_doc : string :=
  "<a href='http://a.com/1'>1</a><a href='http://a.com/2'>2</a><a href='http://a.com/3'>3</a><a href='http://a.com/4'>4</a>".

Definition five_urls : list (string * Url) :=
  [("http://a.com", mkUrl "http:" "a.com" "http://a.com/");
   ("http://a.com/1", mkUrl "http:" "a.com" "http://a.com/1");
   ("http://a.com/2", mkUrl "http:" "a.com" "http://a.com/2");
   ("http://a.com/3", mkUrl "http:" "a.com" "http://a.com/3");
   ("http://a.com/4", mkUrl "http:" "a.com" "http://a.com/4")].

Definition five_documents : list (string * (list string * list string)) :=
  [(index_doc, ([], ["http://a.com/1"; "http://a.com/2";
                     "http://a.com/3"; "http://a.com/4"]))].

(** The fifth page, [http://a.com/4], answers with [fifth]. *)
Definition five_pages (fifth : Response) : World :=
  world five_urls
    [("http://a.com", response "text/html" index_doc);
     ("http://a.com/1", response "text/html" "<p>one</p>");
     ("http://a.com/2", response "text/html" "<p>two</p>");
     ("http://a.com/3", response "text/html" "<p>three</p>");
     ("http://a.com/4", fifth)]
    five_documents.

Definition png : Response := response "image/png" "PNG".
Definition four_doc : Response := response "text/html" "<p>four</p>".

(** *** A site whose only page is an image, and a browser that shows it *)
Definition viewer_doc : string :=
  "<html><body><img src='http://example.com/logo.png'></body></html>".

Definition logo_web : World :=
  world
    [("http://example.com",
        mkUrl "http:" "example.com" "http://example.com/");
     ("http://example.com/logo.png",
        mkUrl "http:" "example.com" "http://example.com/logo.png")]
    [("http://example.com", response "image/png" "PNG")]
    [(viewer_doc, (["http://example.com/logo.png"], []))].

Definition viewer : Browser := Some (fun _ => renders viewer_doc).

(** *** A short page, and browsers that fail *)
Definition short_doc : string := "<img src='http://example.com/a.png'>".

Definition short_web : World :=
  world
    [("http://example.com",
        mkUrl "http:" "example.com" "http://example.com/");
     ("http://example.com/a.png",
        mkUrl "http:" "example.com" "http://example.com/a.png")]
    [("http://example.com", response "text/html" short_doc)]
    [(short_doc, (["http://example.com/a.png"], []))].


(** Capturing the document fails, every other call works. *)
Definition no_capture : Browser :=
  Some (fun _ => mkRender (Ok tt) (Ok tt) (Ok tt)
                          (Throw "page crashed") (Ok tt) (Ok tt)).

(** Navigation fails, every other call works and the blank document is
    captured. *)
Definition no_navigation : Browser :=
  Some (fun _ => mkRender (Ok tt) (Ok tt) (Throw "navigation timeout")
                          (Ok "<html><head></head><body></body></html>")
                          (Ok tt) (Ok tt)).

(** A web where nothing answers. *)
Definition dead_web : World :=
  world [("http://example.com",
            mkUrl "http:" "example.com" "http://example.com/")] [] [].

(** *** A page with two links to one page, differing in the fragment *)
Definition toc_doc : string :=
  "<a href='http://a.com/b#x'>x</a><a href='http://a.com/b#y'>y</a>".

Definition toc_web : World :=
  world
    [("http://a.com", mkUrl "http:" "a.com" "http://a.com/");
     ("http://a.com/b#x", mkUrl "http:" "a.com" "http://a.com/b#x");
     ("http://a.com/b#y", mkUrl "http:" "a.com" "http://a.com/b#y");
     ("http://a.com/b", mkUrl "http:" "a.com" "http://a.com/b")]
    [("http://a.com", response "text/html" toc_doc);
     ("http://a.com/b", response "text/html" "<p>b</p>")]
    [(toc_doc, ([], ["http://a.com/b#x"; "http://a.com/b#y"]))].

End Web.

(** ** Two statements that are compared with the code below *)

Section Statements.

Variable W : World.
Variable opts : Options.
Variable browser : Browser.
Variable host : string.

(** "A page whose response content-type is not HTML contributes zero
    images and zero links, yet still consumes one unit of page budget",
    for the entry at the head of the queue of [st]. *)
Definition non_html_page_contributes_nothing (st : State) : Prop :=
  forall e rest r,
    toVisit st = e :: rest ->
    JsSet.has (seen st) (url e) = false ->
    fetch W (fetch_url W (url e)) = Ok r ->
    is_html r = false ->
    pagesVisited (fst (iteration W opts browser host st)) = pagesVisited st + 1 /\
    found_images (snd (iteration W opts browser host st)) = [] /\
    enqueued (snd (iteration W opts browser host st)) = [].


End Statements.

From Stdlib Require Import Permutation.

(** ** More notions for the statements *)

(** Equality of browser calls is decidable (for counting them). *)
Definition BrowserOp_eq_dec (a b : BrowserOp) : {a = b} + {a <> b}.
Proof. decide equality. Defined.

(** How often a browser call occurs in a log. *)
Definition count_op (o : BrowserOp) (l : list Effect) : nat :=
  count_occ BrowserOp_eq_dec (browser_ops l) o.

(** Whether a string contains the character [c]. *)
Fixpoint contains_char (c : ascii) (s : string) : bool :=
  match s with
  | EmptyString => false
  | String c' s' => (Ascii.eqb c' c || contains_char c s')%bool
  end.

(** The content of the page of a dequeued entry: the local [html] after
    the plain fetch and the render fallback, as the extraction finds it. *)
Definition page_content (W : World) (browser : Browser) (host : string)
    (e : FrontierEntry) : option string :=
  html (render_fallback browser host (url e) (plain_fetch W host e)).

(** No call of the browser throws (a failing navigation is not a throw). *)
Definition no_render_throws (browser : Browser) : Prop :=
  forall render u, browser = Some render -> render_throws (render u) = None.

(** *** A page that answers 404 with an HTML body *)
Module ErrorPage.

Definition body : string :=
  "<html><body><h1>Not found</h1><img src='/logo.png'><a href='/'>home</a></body></html>".

Definition web : World :=
  Web.world
    [("http://example.com",
        mkUrl "http:" "example.com" "http://example.com/");
     ("/logo.png",
        mkUrl "http:" "example.com" "http://example.com/logo.png");
     ("/", mkUrl "http:" "example.com" "http://example.com/")]
    [("http://example.com", mkResponse false 404 (Some "text/html") (Ok body))]
    [(body, (["/logo.png"], ["/"]))].

End ErrorPage.

(** ** More JavaScript string methods (index.js, [extractImagesAndLinks]) *)
Module JsText.

Definition LF : ascii := "010"%char.
Definition CR : ascii := "013"%char.

(** White space and line terminators, as [trim] removes them, among the
    characters below 256: tab, LF, VT, FF, CR, space, no-break space. *)
Definition is_space (c : ascii) : bool :=
  let n := nat_of_ascii c in
  ((Nat.leb 9 n && Nat.leb n 13) || Nat.eqb n 32 || Nat.eqb n 160)%bool.

Fixpoint trimStart (s : string) : string :=
  match s with
  | EmptyString => EmptyString
  | String c s' => if is_space c then trimStart s' else s
  end.

Fixpoint trimEnd (s : string) : string :=
  match s with
  | EmptyString => EmptyString
  | String c s' =>
      match trimEnd s' with
      | EmptyString => if is_space c then EmptyString else String c EmptyString
      | t => String c t
      end
  end.

(** [s.trim()] *)
Definition trim (s : string) : string := trimEnd (trimStart s).

(** [s.split(sep)] for a separator of one character: the pieces between
    the separators, at least one piece. *)
Fixpoint split (sep : ascii) (s : string) : list string :=
  match s with
  | EmptyString => [EmptyString]
  | String c s' =>
      if Ascii.eqb c sep then EmptyString :: split sep s'
      else match split sep s' with
           | [] => [String c EmptyString]
           | piece :: pieces => String c piece :: pieces
           end
  end.

Definition starts_with_LF (s : string) : bool :=
  match s with
  | EmptyString => false
  | String c _ => Ascii.eqb c LF
  end.

(** [s.split(/\r?\n/)]: a separator is a line feed, together with the
    carriage return right before it when there is one. *)
Fixpoint split_lines (s : string) : list string :=
  match s with
  | EmptyString => [EmptyString]
  | String c s' =>
      if Ascii.eqb c LF then EmptyString :: split_lines s'
      else if (Ascii.eqb c CR && starts_with_LF s')%bool then split_lines s'
      else match split_lines s' with
           | [] => [String c EmptyString]
           | piece :: pieces => String c piece :: pieces
           end
  end.

(** [Boolean(s)] for a string: it is not empty. *)
Definition truthy (s : string) : bool := negb (String.eqb s "").

End JsText.

(** [text.split(/\r?\n/).map(s => s.trim()).filter(Boolean)]: the domain
    list of a job, from the body of the source. *)
Definition parse_domains (text : string) : list string :=
  filter JsText.truthy (map JsText.trim (JsText.split_lines text)).

(** The URLs that [extractImagesAndLinks] adds to [images] for one
    [srcset] attribute, in the order of the calls of [images.add]:
    [srcset.split(',')], then [part.trim().split(' ')[0]] of each part,
    kept when not empty. *)
Definition srcset_url (part : string) : string :=
  hd EmptyString (JsText.split " "%char (JsText.trim part)).

Definition srcset_urls (srcset : string) : list string :=
  filter JsText.truthy (map srcset_url (JsText.split ","%char srcset)).

(** One candidate of a [srcset] attribute as it is usually written: a URL
    alone, or a URL, a space and a descriptor. *)
Definition srcset_candidate (c : string * option string) : string :=
  match snd c with
  | None => fst c
  | Some descriptor => (fst c ++ " " ++ descriptor)%string
  end.

(** The last [n] elements of a list. *)
Definition lastn {A : Type} (n : nat) (l : list A) : list A :=
  skipn (List.length l - n) l.

(** ** index.js: jobs, events and results *)
Module Index.

(** [status] of a job. *)
Inductive Status : Type := queued | running | done | failed.

(** What a handler answers. *)
Inductive Reply : Type :=
| NotFound                 (* 404 'Job not found' *)
| BadRequest               (* 400, source query param required *)
| JobId (jobId : string)   (* { jobId } *)
| EventStream              (* text/event-stream, kept open *)
| Text (body : string).    (* text/plain *)

(** What the crawler calls back. *)
Inductive Callback (C : Type) : Type :=
| OnEvent (evt : C)
| OnFoundImage (imgUrl : string).
Arguments OnEvent {C} evt.
Arguments OnFoundImage {C} imgUrl.

(** The events of a job: those of index.js itself, by message template,
    and those passed on from the crawler. *)
Inductive JobEvent (C : Type) : Type :=
| SourceDownloading              (* 'info', before the source is fetched *)
| SourceError (status : Z)       (* 'error', with r.status *)
| DomainsLoaded (n : Z)          (* 'info', with domains.length *)
| FromCrawler (evt : C)          (* onEvent: evt => sendEvent(jobId, evt) *)
| Finished (size : Z)            (* 'done', with results.size *)
| JobError (message : string).   (* 'error', with String(err) for the error
                                    thrown with this message *)
Arguments SourceDownloading {C}.
Arguments SourceError {C} status.
Arguments DomainsLoaded {C} n.
Arguments FromCrawler {C} evt.
Arguments Finished {C} size.
Arguments JobError {C} message.

Section Server.

(** The objects passed to [sendEvent]. *)
Variable Evt : Type.

(** An element of [JOBS] ([createdAt] is left out); [sseRes] is the
    connection that gets the live events, by its number. *)
Record Job := mkJob {
  job_status : Status;
  job_events : list Evt;
  results : JsSet.t;
  sseRes : option nat
}.

(** [JOBS], by its own properties, the jobs that [/start] has put in it
    ([None] for an identifier that names no job; names that the object
    inherits, such as [constructor], are not job identifiers and are left
    out), and the frames passed to [res.write] so far, each with the
    connection it was written to ([data: JSON.stringify(evt)] stands as
    [evt]; a write that throws in [sendEvent] is caught and ignored
    there). *)
Record Server := mkServer {
  JOBS : string -> option Job;
  written : list (nat * Evt)
}.

Definition set_job (jobId : string) (job : Job) (s : Server) : Server :=
  mkServer (fun k => if String.eqb k jobId then Some job else JOBS s k)
           (written s).

(** [sendEvent(jobId, evt)] *)
Definition sendEvent (jobId : string) (evt : Evt) (s : Server) : Server :=
  match JOBS s jobId with
  | None => s
  | Some job =>
      let pushed := job_events job ++ [evt] in
      let capped := if 2000 <? Z.of_nat (List.length pushed)
                    then tl pushed else pushed in
      let s' := set_job jobId
                  (mkJob (job_status job) capped (results job) (sseRes job)) s in
      match sseRes job with
      | Some conn => mkServer (JOBS s') (written s' ++ [(conn, evt)])
      | None => s'
      end
  end.

(** [GET /events/:jobId] on connection [conn]: the buffered events are
    written, then the connection is kept for the live ones. *)
Definition events_get (jobId : string) (conn : nat) (s : Server)
  : Reply * Server :=
  match JOBS s jobId with
  | None => (NotFound, s)
  | Some job =>
      let s' := mkServer (JOBS s)
                  (written s ++ map (fun evt => (conn, evt)) (job_events job)) in
      (EventStream,
       set_job jobId
         (mkJob (job_status job) (job_events job) (results job) (Some conn)) s')
  end.

(** The ['close'] handler of the request of connection [conn]; it does
    not look at which connection is attached. *)
Definition events_close (jobId : string) (conn : nat) (s : Server) : Server :=
  match JOBS s jobId with
  | None => s
  | Some job =>
      set_job jobId (mkJob (job_status job) (job_events job) (results job) None) s
  end.

(** [GET /results/:jobId] *)
Definition results_get (jobId : string) (s : Server) : Reply :=
  match JOBS s jobId with
  | None => NotFound
  | Some job => Text (String.concat (String JsText.LF EmptyString) (results job))
  end.

(** [JOBS[jobId].status = status] and [JOBS[jobId].results.add(imgUrl)],
    on a job that exists. *)
Definition set_status (jobId : string) (status : Status) (s : Server) : Server :=
  match JOBS s jobId with
  | None => s
  | Some job =>
      set_job jobId (mkJob status (job_events job) (results job) (sseRes job)) s
  end.

Definition add_result (jobId : string) (imgUrl : string) (s : Server) : Server :=
  match JOBS s jobId with
  | None => s
  | Some job =>
      set_job jobId
        (mkJob (job_status job) (job_events job)
               (onFoundImage (results job) imgUrl) (sseRes job)) s
  end.

(** Several [sendEvent]s in a row. *)
Definition send_all (jobId : string) (evts : list Evt) (s : Server) : Server :=
  fold_left (fun s evt => sendEvent jobId evt s) evts s.

End Server.

Arguments mkJob {Evt} _ _ _ _.
Arguments job_status {Evt} _.
Arguments job_events {Evt} _.
Arguments results {Evt} _.
Arguments sseRes {Evt} _.
Arguments mkServer {Evt} _ _.
Arguments JOBS {Evt} _ _.
Arguments written {Evt} _.
Arguments set_job {Evt} _ _ _.
Arguments sendEvent {Evt} _ _ _.
Arguments events_get {Evt} _ _ _.
Arguments events_close {Evt} _ _ _.
Arguments results_get {Evt} _ _.
Arguments set_status {Evt} _ _ _.
Arguments add_result {Evt} _ _ _.
Arguments send_all {Evt} _ _ _.

Section Start.

(** The events of the crawler. *)
Variable C : Type.

Variable W : World.

(** What [crawlerForDomains] does for a domain list, with the options of
    the request: its calls of [onEvent] and [onFoundImage] in the order
    in which they happen, and whether it returns or throws. *)
Variable crawl : list string -> list (Callback C) * result unit.

Definition callback (jobId : string) (s : Server (JobEvent C))
    (c : Callback C) : Server (JobEvent C) :=
  match c with
  | OnEvent evt => sendEvent jobId (FromCrawler evt) s
  | OnFoundImage imgUrl => add_result jobId imgUrl s
  end.

(** The [catch] of the job: the error is sent and the job has failed;
    [message] is the message of the error that was thrown. *)
Definition job_failed (jobId message : string) (s : Server (JobEvent C))
  : Server (JobEvent C) :=
  set_status jobId failed (sendEvent jobId (JobError message) s).

Definition results_size (jobId : string) (s : Server (JobEvent C)) : Z :=
  match JOBS s jobId with
  | Some job => JsSet.size (results job)
  | None => 0
  end.

(** The background job of [/start], from its first statement to its
    end. *)
Definition run_job (jobId source : string) (s : Server (JobEvent C))
  : Server (JobEvent C) :=
  let s1 := sendEvent jobId SourceDownloading s in
  match fetch W (fetch_url W source) with
  | Throw message => job_failed jobId message s1
  | Ok r =>
      if negb (ok r)
      then set_status jobId failed (sendEvent jobId (SourceError (status r)) s1)
      else
        match text r with
        | Throw message => job_failed jobId message s1
        | Ok body =>
            let domains := parse_domains body in
            let s2 := sendEvent jobId
                        (DomainsLoaded (Z.of_nat (List.length domains))) s1 in
            let s3 := set_status jobId running s2 in
            let s4 := fold_left (callback jobId) (fst (crawl domains)) s3 in
            match snd (crawl domains) with
            | Throw message => job_failed jobId message s4
            | Ok _ =>
                let s5 := set_status jobId done s4 in
                sendEvent jobId (Finished (results_size jobId s5)) s5
            end
        end
  end.

(** [GET /start]: [source] is [req.query.source], [jobId] the identifier
    that [uuidv4()] returns. *)
Definition start (source : option string) (jobId : string)
    (s : Server (JobEvent C)) : Reply * Server (JobEvent C) :=
  match source with
  | None => (BadRequest, s)
  | Some src =>
      if String.eqb src "" then (BadRequest, s)
      else (JobId jobId,
            run_job jobId src
              (set_job jobId (mkJob queued [] JsSet.empty None) s))
  end.

End Start.

End Index.

(** The requests that touch the event streams, and the server run on a
    sequence of them. *)
Inductive StreamRequest (Evt : Type) : Type :=
| Send (jobId : string) (evt : Evt)     (* sendEvent(jobId, evt) *)
| Open (jobId : string) (conn : nat)    (* GET /events/:jobId on conn *)
| Close (jobId : string) (conn : nat).  (* 'close' of the request of conn *)
Arguments Send {Evt} jobId evt.
Arguments Open {Evt} jobId conn.
Arguments Close {Evt} jobId conn.

Definition handle_request {Evt : Type} (s : Index.Server Evt)
    (r : StreamRequest Evt) : Index.Server Evt :=
  match r with
  | Send jobId evt => Index.sendEvent jobId evt s
  | Open jobId conn => snd (Index.events_get jobId conn s)
  | Close jobId conn => Index.events_close jobId conn s
  end.

Definition serve {Evt : Type} (requests : list (StreamRequest Evt))
    (s : Index.Server Evt) : Index.Server Evt :=
  fold_left handle_request requests s.

(** The frames written to one connection, in order. *)
Definition frames_to {Evt : Type} (conn : nat) (w : list (nat * Evt)) : list Evt :=
  flat_map (fun f => if Nat.eqb (fst f) conn then [snd f] else []) w.

(** The events sent to one job by a sequence of requests. *)
Definition sent_to {Evt : Type} (jobId : string)
    (requests : list (StreamRequest Evt)) : list Evt :=
  flat_map (fun r => match r with
                     | Send j evt => if String.eqb j jobId then [evt] else []
                     | _ => []
                     end) requests.

(** A request that leaves the stream of [jobId] to [conn]: any
    [sendEvent], and the opening or closing of a stream of another job on
    another connection. *)
Definition leaves_stream {Evt : Type} (jobId : string) (conn : nat)
    (r : StreamRequest Evt) : Prop :=
  match r with
  | Send _ _ => True
  | Open j c => j <> jobId /\ c <> conn
  | Close j _ => j <> jobId
  end.

(** No job other than [jobId] has [conn] attached. *)
Definition conn_free {Evt : Type} (jobId : string) (conn : nat)
    (s : Index.Server Evt) : Prop :=
  forall k job, k <> jobId -> Index.JOBS s k = Some job ->
                Index.sseRes job <> Some conn.

(** The image URLs and the events among the crawler's calls. *)
Definition forwarded {C : Type} (calls : list (Index.Callback C)) : list string :=
  flat_map (fun c => match c with
                     | Index.OnFoundImage imgUrl => [imgUrl]
                     | Index.OnEvent _ => []
                     end) calls.

Definition crawler_events {C : Type} (calls : list (Index.Callback C)) : list C :=
  flat_map (fun c => match c with
                     | Index.OnEvent evt => [evt]
                     | Index.OnFoundImage _ => []
                     end) calls.

(** *** A source of two domains, a source that fails, and a crawler that
    forwards one image per domain *)
Module Source.

Definition list_body : string :=
  ("a.com" ++ String JsText.CR (String JsText.LF
     ("  b.com " ++ String JsText.LF (String JsText.LF ""))))%string.

Definition web : World :=
  Web.world
    [("http://lists.example/domains.txt",
        mkUrl "http:" "lists.example" "http://lists.example/domains.txt");
     ("http://lists.example/gone.txt",
        mkUrl "http:" "lists.example" "http://lists.example/gone.txt")]
    [("http://lists.example/domains.txt", Web.response "text/plain" list_body);
     ("http://lists.example/gone.txt",
        mkResponse false 410 (Some "text/plain") (Ok "gone"))]
    [].

Definition crawl (domains : list string)
  : list (Index.Callback string) * result unit :=
  (flat_map (fun d => [Index.OnEvent d;
                       Index.OnFoundImage "http://cdn.example/logo.png"])
            domains,
   Ok tt).

Definition no_jobs : Index.Server (Index.JobEvent string) :=
  Index.mkServer (fun _ => None) [].

End Source.

(** Whether every character of a string satisfies [p]. *)
Fixpoint forall_chars (p : ascii -> bool) (s : string) : bool :=
  match s with
  | EmptyString => true
  | String c s' => (p c && forall_chars p s')%bool
  end.

(** A character that is neither white space nor a comma. *)
Definition url_char (c : ascii) : bool :=
  (negb (JsText.is_space c) && negb (Ascii.eqb c ","%char))%bool.

(** [conn] is attached to the job [jobId] and to no other job. *)
Definition stream_attached {Evt : Type} (jobId : string) (conn : nat)
    (s : Index.Server Evt) : Prop :=
  (exists job, Index.JOBS s jobId = Some job /\ Index.sseRes job = Some conn) /\
  conn_free jobId conn s.
(** * Properties *)

(** ** Effects of the two [try] blocks *)

Lemma all_quiet_app l1 l2 : all_quiet l1 -> all_quiet l2 -> all_quiet (l1 ++ l2).
Proof. intros; apply Forall_app; auto. Qed.

Lemma all_quiet_nil : all_quiet [].
Proof. constructor. Qed.

Lemma all_quiet_cons x l : quiet x = true -> all_quiet l -> all_quiet (x :: l).
Proof. intros; constructor; auto. Qed.

Create HintDb quiet.
#[local] Hint Resolve all_quiet_app all_quiet_nil all_quiet_cons : quiet.

Lemma quiet_dequeued l : all_quiet l -> dequeued l = [].
Proof.
  induction 1 as [|x l Hx _ IH]; [reflexivity|].
  simpl; rewrite IH; destruct x as [| [] | | | |]; simpl in *; congruence.
Qed.

Lemma quiet_enqueued l : all_quiet l -> enqueued l = [].
Proof.
  induction 1 as [|x l Hx _ IH]; [reflexivity|].
  simpl; rewrite IH; destruct x as [| [] | | | |]; simpl in *; congruence.
Qed.

Lemma quiet_found_images l : all_quiet l -> found_images l = [].
Proof.
  induction 1 as [|x l Hx _ IH]; [reflexivity|].
  simpl; rewrite IH; destruct x as [| [] | | | |]; simpl in *; congruence.
Qed.

Lemma quiet_processed l : all_quiet l -> processed l = [].
Proof.
  induction 1 as [|x l Hx _ IH]; [reflexivity|].
  simpl; rewrite IH; destruct x as [| [] | | | |]; simpl in *; congruence.
Qed.

Lemma quiet_domain_progress l : all_quiet l -> domain_progress l = [].
Proof.
  induction 1 as [|x l Hx _ IH]; [reflexivity|].
  simpl; rewrite IH; destruct x as [| [] | | | |]; simpl in *; congruence.
Qed.

Ltac run_js :=
  unfold try_catch, catch_ignore, bind, emit, await, set_html, ret; simpl.

Section BlockFacts.

Variable W : World.
Variable host : string.

(** The fetch block only appends quiet effects to the log. *)
Lemma fetch_block_log url l :
  exists ext, log (snd (fetch_block W host url l)) = log l ++ ext
              /\ all_quiet ext /\ fetched ext = [fetch_url W url].
Proof.
  unfold fetch_block. run_js.
  destruct (fetch W _) as [r|m]; simpl.
  - destruct (ok r); simpl;
      (destruct (JsString.includes _ _); simpl;
       [destruct (text r); simpl|]);
      rewrite <- ?app_assoc; eexists; (split; [reflexivity|]);
      (split; [|reflexivity]);
      repeat (apply all_quiet_cons; [reflexivity|]); apply all_quiet_nil.
  - rewrite <- ?app_assoc; eexists; (split; [reflexivity|]);
      (split; [|reflexivity]);
      repeat (apply all_quiet_cons; [reflexivity|]); apply all_quiet_nil.
Qed.

(** So does the render block. *)
Lemma render_block_log render url l :
  exists ext, log (snd (render_block host render url l)) = log l ++ ext
              /\ all_quiet ext /\ fetched ext = [].
Proof.
  unfold render_block. run_js.
  destruct (newContext _); simpl;
  [destruct (newPage _); simpl;
   [destruct (goto _); simpl;
    (destruct (content _); simpl;
     [destruct (page_close _); simpl;
      [destruct (context_close _); simpl|]|])|]|];
  rewrite <- ?app_assoc; eexists; (split; [reflexivity|]);
  (split; [|reflexivity]);
  repeat (apply all_quiet_cons; [reflexivity|]); apply all_quiet_nil.
Qed.

Lemma render_fallback_log browser url l :
  exists ext, log (render_fallback browser host url l) = log l ++ ext
              /\ all_quiet ext /\ fetched ext = [].
Proof.
  unfold render_fallback.
  destruct browser as [render|].
  - destruct (needs_render _).
    + apply render_block_log.
    + exists []; rewrite app_nil_r; auto with quiet.
  - exists []; rewrite app_nil_r; auto with quiet.
Qed.

End BlockFacts.

(** ** One iteration *)

Lemma dequeued_app l1 l2 : dequeued (l1 ++ l2) = dequeued l1 ++ dequeued l2.
Proof. apply flat_map_app. Qed.

Lemma enqueued_app l1 l2 : enqueued (l1 ++ l2) = enqueued l1 ++ enqueued l2.
Proof. apply flat_map_app. Qed.

Lemma processed_app l1 l2 : processed (l1 ++ l2) = processed l1 ++ processed l2.
Proof. apply flat_map_app. Qed.

Lemma found_images_app l1 l2 :
  found_images (l1 ++ l2) = found_images l1 ++ found_images l2.
Proof. apply flat_map_app. Qed.

Lemma domain_progress_app l1 l2 :
  domain_progress (l1 ++ l2) = domain_progress l1 ++ domain_progress l2.
Proof. apply flat_map_app. Qed.

Lemma enqueued_pushes q : enqueued (map EEnqueue q) = q.
Proof. induction q as [|e q IH]; simpl; congruence. Qed.

Lemma dequeued_pushes q : dequeued (map EEnqueue q) = [].
Proof. induction q as [|e q IH]; simpl; congruence. Qed.

Lemma processed_pushes q : processed (map EEnqueue q) = [].
Proof. induction q as [|e q IH]; simpl; congruence. Qed.

Lemma found_images_pushes q : found_images (map EEnqueue q) = [].
Proof. induction q as [|e q IH]; simpl; congruence. Qed.

Lemma enqueued_found (f : string -> string) imgs :
  enqueued (map (fun i => EFoundImage (f i)) imgs) = [].
Proof. induction imgs as [|i imgs IH]; simpl; congruence. Qed.

Lemma dequeued_found (f : string -> string) imgs :
  dequeued (map (fun i => EFoundImage (f i)) imgs) = [].
Proof. induction imgs as [|i imgs IH]; simpl; congruence. Qed.

Lemma processed_found (f : string -> string) imgs :
  processed (map (fun i => EFoundImage (f i)) imgs) = [].
Proof. induction imgs as [|i imgs IH]; simpl; congruence. Qed.

Lemma found_images_found (f : string -> string) imgs :
  found_images (map (fun i => EFoundImage (f i)) imgs) = map f imgs.
Proof. induction imgs as [|i imgs IH]; simpl; congruence. Qed.

Section IterationFacts.

Variable W : World.
Variable opts : Options.
Variable browser : Browser.
Variable host : string.


(** Every pushed entry is one level below the page it was found on, was
    admitted by [admit_link], and is pushed only under [depth < maxDepth]. *)
Lemma pushed_links_spec seen base d links p :
  In p (pushed_links W host seen base d links) ->
  depth p = d + 1 /\
  exists link, In link links /\ admit_link W host seen base link = Some (url p).
Proof.
  unfold pushed_links; rewrite in_flat_map.
  intros (link & Hin & Hp).
  destruct (admit_link W host seen base link) as [n|] eqn:E; simpl in Hp.
  - destruct Hp as [<-|[]]; simpl; split; [reflexivity|].
    exists link; auto.
  - contradiction.
Qed.

(** A dequeued entry whose URL is in [seen] is dropped: nothing else
    changes and nothing else happens. *)
Lemma iteration_seen st e rest :
  toVisit st = e :: rest ->
  JsSet.has (seen st) (url e) = true ->
  iteration W opts browser host st
  = (mkState (seen st) rest (pagesVisited st), [EDequeue e]).
Proof. intros Hq Hs; unfold iteration; rewrite Hq, Hs; reflexivity. Qed.

(** The shape of an iteration on an entry whose URL is not in [seen]. *)
Lemma iteration_fresh st e rest :
  toVisit st = e :: rest ->
  JsSet.has (seen st) (url e) = false ->
  exists mid imgs pushed periodic,
    iteration W opts browser host st =
      (mkState (JsSet.add (seen st) (url e)) (rest ++ pushed) (pagesVisited st + 1),
       EDequeue e :: EEvent (Progress host (url e) (depth e)) ::
       mid ++ map (fun i => EFoundImage (normalizeUrl W i (url e))) imgs
           ++ map EEnqueue pushed ++ periodic)
    /\ all_quiet mid /\ fetched mid = [fetch_url W (url e)]
    /\ (forall p, In p pushed ->
          depth e < maxDepth opts /\ depth p = depth e + 1 /\
          exists link,
            admit_link W host (JsSet.add (seen st) (url e)) (url e) link
            = Some (url p))
    /\ (periodic = [] \/
        periodic = [EEvent (DomainProgress host (pagesVisited st + 1))]).
Proof.
  intros Hq Hs; unfold iteration; rewrite Hq, Hs.
  unfold plain_fetch.
  set (l0 := mkLocals None _).
  destruct (fetch_block_log W host (url e) l0) as (x1 & E1 & Q1 & F1).
  destruct (render_fallback_log host browser (url e)
              (snd (fetch_block W host (url e) l0))) as (x2 & E2 & Q2 & F2).
  assert (F : fetched (x1 ++ x2) = [fetch_url W (url e)]).
  { unfold fetched in *; rewrite flat_map_app, F1, F2; reflexivity. }
  rewrite E1 in E2; subst l0; simpl in E2.
  assert (Hempty : exists mid imgs pushed periodic,
    (mkState (JsSet.add (seen st) (url e)) rest (pagesVisited st + 1),
     EDequeue e :: EEvent (Progress host (url e) (depth e)) :: x1 ++ x2) =
    (mkState (JsSet.add (seen st) (url e)) (rest ++ pushed) (pagesVisited st + 1),
       EDequeue e :: EEvent (Progress host (url e) (depth e)) ::
       mid ++ map (fun i => EFoundImage (normalizeUrl W i (url e))) imgs
           ++ map EEnqueue pushed ++ periodic)
    /\ all_quiet mid /\ fetched mid = [fetch_url W (url e)]
    /\ (forall p, In p pushed ->
          depth e < maxDepth opts /\ depth p = depth e + 1 /\
          exists link,
            admit_link W host (JsSet.add (seen st) (url e)) (url e) link
            = Some (url p))
    /\ (periodic = [] \/
        periodic = [EEvent (DomainProgress host (pagesVisited st + 1))])).
  { exists (x1 ++ x2), [], [], []; simpl; rewrite !app_nil_r.
    split; [reflexivity|]; split; [auto with quiet|]; split; [exact F|];
      split; [|auto].
    intros p []. }
  destruct (html _) as [h|]; [|rewrite E2; exact Hempty].
  destruct (falsy (Some h)); [rewrite E2; exact Hempty|].
  clear Hempty.
  destruct (extractImagesAndLinks W h (url e)) as [images links].
  rewrite E2.
  eexists (x1 ++ x2), images, _, _; split; [|split; [|split; [|split]]].
  - simpl; rewrite <- !app_assoc; reflexivity.
  - auto with quiet.
  - exact F.
  - intros p Hp. destruct (depth e <? maxDepth opts) eqn:Hd; [|destruct Hp].
    apply Z.ltb_lt in Hd.
    apply pushed_links_spec in Hp as (Hdp & link & _ & Hl).
    split; [exact Hd|]; split; [exact Hdp|]; exists link; exact Hl.
  - destruct (Z.rem _ 5 =? 0); auto.
Qed.

End IterationFacts.

(** ** The loop as a relation *)

Section LoopFacts.

Variable W : World.
Variable opts : Options.
Variable browser : Browser.
Variable host : string.

Abbreviation iteration := (iteration W opts browser host).
Abbreviation loop := (loop W opts browser host).
Abbreviation Run := (Run W opts browser host).

Lemma loop_Run fuel : forall st st' l,
  loop fuel st = Some (st', l) -> Run st st' l.
Proof.
  induction fuel as [|fuel IH]; intros st st' l; simpl;
    destruct (loop_cond opts st) eqn:C; try discriminate.
  - intros [= <- <-]; constructor; assumption.
  - destruct (iteration st) as [st1 l1] eqn:I.
    destruct (loop fuel st1) as [[st2 l2]|] eqn:L; [|discriminate].
    intros [= <- <-]. econstructor; eauto.
  - intros [= <- <-]; constructor; assumption.
Qed.

Lemma Run_loop st st' l :
  Run st st' l -> exists fuel, loop fuel st = Some (st', l).
Proof.
  induction 1 as [st C | st st1 l1 st2 l2 C I _ [fuel IH]].
  - exists O; simpl; rewrite C; reflexivity.
  - exists (S fuel); simpl; rewrite C, I, IH; reflexivity.
Qed.

(** The loop is deterministic: the fuel does not change its result. *)
Lemma Run_deterministic st st1 l1 :
  Run st st1 l1 -> forall st2 l2, Run st st2 l2 -> st1 = st2 /\ l1 = l2.
Proof.
  induction 1 as [st C | st sa la sb lb C I _ IH]; intros st2 l2 R2.
  - inversion R2; subst; [auto | congruence].
  - inversion R2 as [? C' | ? sa' la' sb' lb' C' I' R']; subst; [congruence|].
    rewrite I in I'; injection I' as <- <-.
    destruct (IH _ _ R') as [<- <-]; auto.
Qed.

Lemma loop_cond_true st :
  loop_cond opts st = true ->
  exists e rest, toVisit st = e :: rest
                 /\ pagesVisited st < maxPagesPerDomain opts.
Proof.
  unfold loop_cond; intros H; apply andb_true_iff in H as [Hq Hp].
  apply Z.ltb_lt in Hp.
  destruct (toVisit st) as [|e rest]; [discriminate|eauto].
Qed.

(** One iteration, by cases: a seen entry is dropped, a fresh one is
    processed. *)
Lemma iteration_cases st st1 l1 :
  loop_cond opts st = true ->
  iteration st = (st1, l1) ->
  exists e rest,
    toVisit st = e :: rest /\ pagesVisited st < maxPagesPerDomain opts /\
    ((JsSet.has (seen st) (url e) = true /\
      st1 = mkState (seen st) rest (pagesVisited st) /\ l1 = [EDequeue e])
     \/
     (JsSet.has (seen st) (url e) = false /\
      exists mid imgs pushed periodic,
        st1 = mkState (JsSet.add (seen st) (url e)) (rest ++ pushed)
                      (pagesVisited st + 1) /\
        l1 = EDequeue e :: EEvent (Progress host (url e) (depth e)) ::
             mid ++ map (fun i => EFoundImage (normalizeUrl W i (url e))) imgs
                 ++ map EEnqueue pushed ++ periodic /\
        all_quiet mid /\ fetched mid = [fetch_url W (url e)] /\
        (forall p, In p pushed ->
           depth e < maxDepth opts /\ depth p = depth e + 1 /\
           exists link,
             admit_link W host (JsSet.add (seen st) (url e)) (url e) link
             = Some (url p)) /\
        (periodic = [] \/
         periodic = [EEvent (DomainProgress host (pagesVisited st + 1))]))).
Proof.
  intros C I.
  destruct (loop_cond_true st C) as (e & rest & Hq & Hp).
  exists e, rest; split; [exact Hq|]; split; [exact Hp|].
  destruct (JsSet.has (seen st) (url e)) eqn:Hs.
  - left. rewrite (iteration_seen W opts browser host st e rest Hq Hs) in I.
    injection I as <- <-; auto.
  - right; split; [reflexivity|].
    destruct (iteration_fresh W opts browser host st e rest Hq Hs)
      as (mid & imgs & pushed & periodic & E & Q & F & P & D).
    rewrite E in I; injection I as <- <-.
    exists mid, imgs, pushed, periodic; repeat (split; [assumption || reflexivity|]); assumption.
Qed.

(** *** Termination *)

(** The loop ends from every state, whatever the pages contain: a
    processed page uses up budget, a dropped entry shortens the queue. *)
Lemma loop_terminates_from : forall n m st,
  (Z.to_nat (maxPagesPerDomain opts - pagesVisited st) <= n)%nat ->
  (List.length (toVisit st) <= m)%nat ->
  exists st' l, Run st st' l.
Proof.
  induction n as [|n IHn].
  - intros m st Hn _. exists st, []; constructor.
    unfold loop_cond. replace (pagesVisited st <? maxPagesPerDomain opts) with false.
    + apply andb_false_r.
    + symmetry; apply Z.ltb_ge; lia.
  - induction m as [|m IHm]; intros st Hn Hm.
    + exists st, []; constructor. unfold loop_cond.
      destruct (toVisit st); [reflexivity|simpl in Hm; lia].
    + destruct (loop_cond opts st) eqn:C; [|exists st, []; constructor; exact C].
      destruct (iteration st) as [st1 l1] eqn:I.
      destruct (iteration_cases st st1 l1 C I)
        as (e & rest & Hq & Hp & [(Hs & -> & ->) | (Hs & mid & imgs & pushed & periodic & -> & -> & _)]).
      * destruct (IHm (mkState (seen st) rest (pagesVisited st)))
          as (st' & l & R); simpl.
        { exact Hn. }
        { rewrite Hq in Hm; simpl in Hm; lia. }
        exists st', ([EDequeue e] ++ l); econstructor; eauto.
      * destruct (IHn (List.length (rest ++ pushed))
                    (mkState (JsSet.add (seen st) (url e)) (rest ++ pushed)
                             (pagesVisited st + 1)))
          as (st' & l & R); simpl.
        { lia. }
        { lia. }
        eexists st', (_ ++ l); econstructor; eauto.
Qed.

Lemma loop_terminates st : exists fuel st' l, loop fuel st = Some (st', l).
Proof.
  destruct (loop_terminates_from _ _ st (le_n _) (le_n _)) as (st' & l & R).
  destruct (Run_loop _ _ _ R) as [fuel E]; eauto.
Qed.

End LoopFacts.

(** ** The set [seen] *)

Lemma has_app s1 s2 x : JsSet.has (s1 ++ s2) x = (JsSet.has s1 x || JsSet.has s2 x)%bool.
Proof.
  induction s1 as [|y s1 IH]; simpl; [reflexivity|].
  rewrite IH, orb_assoc; reflexivity.
Qed.

Lemma has_add s x y :
  JsSet.has (JsSet.add s x) y = (JsSet.has s y || String.eqb x y)%bool.
Proof.
  unfold JsSet.add. destruct (JsSet.has s x) eqn:Hx.
  - destruct (String.eqb_spec x y) as [<-|_].
    + rewrite Hx; reflexivity.
    + rewrite orb_false_r; reflexivity.
  - rewrite has_app; simpl; rewrite orb_false_r; reflexivity.
Qed.

Lemma has_In s x : JsSet.has s x = true <-> In x s.
Proof.
  induction s as [|y s IH]; simpl.
  - split; [discriminate|contradiction].
  - rewrite orb_true_iff, IH, String.eqb_eq; tauto.
Qed.

Lemma add_member s x : JsSet.has s x = true -> JsSet.add s x = s.
Proof. unfold JsSet.add; intros ->; reflexivity. Qed.

Lemma add_NoDup s x : NoDup s -> NoDup (JsSet.add s x).
Proof.
  intros N; unfold JsSet.add. destruct (JsSet.has s x) eqn:Hx; [exact N|].
  apply NoDup_app; [exact N | repeat constructor; simpl; tauto |].
  intros y Hy [<-|[]]. apply has_In in Hy; congruence.
Qed.

(** ** Invariants of the loop *)

(** What a processed page's log contains. *)
Lemma page_log_projections W host e mid imgs pushed periodic l1 :
  l1 = EDequeue e :: EEvent (Progress host (url e) (depth e)) ::
       mid ++ map (fun i => EFoundImage (normalizeUrl W i (url e))) imgs
           ++ map EEnqueue pushed ++ periodic ->
  all_quiet mid ->
  (periodic = [] \/ exists n, periodic = [EEvent (DomainProgress host n)]) ->
  dequeued l1 = [e] /\ enqueued l1 = pushed /\ processed l1 = [url e]
  /\ found_images l1 = map (fun i => normalizeUrl W i (url e)) imgs
  /\ fetched l1 = fetched mid.
Proof.
  intros -> Q P.
  assert (Pd : dequeued periodic = [] /\ enqueued periodic = []
               /\ processed periodic = [] /\ found_images periodic = []).
  { destruct P as [-> | [n ->]]; simpl; auto. }
  destruct Pd as (P1 & P2 & P3 & P4).
  cbn [dequeued enqueued processed found_images flat_map app].
  fold (dequeued (mid ++ map (fun i => EFoundImage (normalizeUrl W i (url e))) imgs
           ++ map EEnqueue pushed ++ periodic)).
  fold (enqueued (mid ++ map (fun i => EFoundImage (normalizeUrl W i (url e))) imgs
           ++ map EEnqueue pushed ++ periodic)).
  fold (processed (mid ++ map (fun i => EFoundImage (normalizeUrl W i (url e))) imgs
           ++ map EEnqueue pushed ++ periodic)).
  fold (found_images (mid ++ map (fun i => EFoundImage (normalizeUrl W i (url e))) imgs
           ++ map EEnqueue pushed ++ periodic)).
  rewrite !dequeued_app, !enqueued_app, !processed_app, !found_images_app.
  rewrite (quiet_dequeued _ Q), (quiet_enqueued _ Q), (quiet_processed _ Q),
    (quiet_found_images _ Q).
  rewrite dequeued_found, enqueued_found, processed_found, found_images_found.
  rewrite dequeued_pushes, enqueued_pushes, processed_pushes, found_images_pushes.
  rewrite P1, P2, P3, P4; simpl; rewrite !app_nil_r.
  repeat (split; [reflexivity|]).
  unfold fetched; rewrite !flat_map_app.
  replace (flat_map _ (map (fun i => EFoundImage _) imgs)) with (@nil string)
    by (clear; induction imgs; simpl; auto).
  replace (flat_map _ (map EEnqueue pushed)) with (@nil string)
    by (clear; induction pushed; simpl; auto).
  replace (flat_map _ periodic) with (@nil string)
    by (destruct P as [-> | [n ->]]; reflexivity).
  rewrite !app_nil_r; reflexivity.
Qed.

Section Invariants.

Variable W : World.
Variable opts : Options.
Variable browser : Browser.
Variable host : string.

Abbreviation iteration := (iteration W opts browser host).
Abbreviation Run := (Run W opts browser host).

(** The projections of the log of one iteration. *)
Lemma iteration_log st st1 l1 :
  loop_cond opts st = true ->
  iteration st = (st1, l1) ->
  exists e rest,
    toVisit st = e :: rest /\ pagesVisited st < maxPagesPerDomain opts /\
    dequeued l1 = [e] /\
    ((JsSet.has (seen st) (url e) = true /\
      st1 = mkState (seen st) rest (pagesVisited st) /\
      enqueued l1 = [] /\ processed l1 = [])
     \/
     (JsSet.has (seen st) (url e) = false /\
      st1 = mkState (JsSet.add (seen st) (url e)) (rest ++ enqueued l1)
                    (pagesVisited st + 1) /\
      processed l1 = [url e] /\ fetched l1 = [fetch_url W (url e)] /\
      (forall p, In p (enqueued l1) ->
         depth e < maxDepth opts /\ depth p = depth e + 1 /\
         exists link,
           admit_link W host (JsSet.add (seen st) (url e)) (url e) link
           = Some (url p)))).
Proof.
  intros C I.
  destruct (iteration_cases W opts browser host st st1 l1 C I)
    as (e & rest & Hq & Hp &
        [(Hs & -> & ->) | (Hs & mid & imgs & pushed & periodic & -> & El & Q & F & P & D)]).
  - exists e, rest; repeat (split; [assumption || reflexivity|]).
    left; auto.
  - destruct (page_log_projections W host e mid imgs pushed periodic l1 El Q)
      as (D1 & D2 & D3 & _ & D5).
    { destruct D as [-> | ->]; eauto. }
    exists e, rest; repeat (split; [assumption|]).
    right; rewrite D2, D5; auto.
Qed.

(** The page counter never passes the budget. *)
Lemma Run_pagesVisited_le st st' l :
  Run st st' l ->
  pagesVisited st <= maxPagesPerDomain opts ->
  pagesVisited st' <= maxPagesPerDomain opts.
Proof.
  induction 1 as [st C | st st1 l1 st2 l2 C I _ IH]; intros Hle; [exact Hle|].
  apply IH.
  destruct (iteration_log st st1 l1 C I)
    as (e & rest & _ & Hp & _ & [(_ & -> & _) | (_ & -> & _)]); simpl; lia.
Qed.

(** Every pushed entry is within the depth limit. *)
Lemma Run_enqueued_depth st st' l :
  Run st st' l ->
  Forall (fun p => depth p <= maxDepth opts) (enqueued l).
Proof.
  induction 1 as [st C | st st1 l1 st2 l2 C I _ IH]; [constructor|].
  rewrite enqueued_app; apply Forall_app; split; [|exact IH].
  destruct (iteration_log st st1 l1 C I)
    as (e & rest & _ & _ & _ & [(_ & _ & -> & _) | (_ & _ & _ & _ & P)]);
    [constructor|].
  apply Forall_forall; intros p Hp.
  destruct (P p Hp) as (Hd & Hp1 & _); lia.
Qed.

(** With no depth to spare, nothing is pushed. *)
Lemma Run_enqueued_none st st' l :
  Run st st' l ->
  maxDepth opts <= 0 ->
  Forall (fun p => 0 <= depth p) (toVisit st) ->
  enqueued l = [].
Proof.
  induction 1 as [st C | st st1 l1 st2 l2 C I _ IH]; intros Hm Hq; [reflexivity|].
  rewrite enqueued_app.
  destruct (iteration_log st st1 l1 C I)
    as (e & rest & Eq & _ & _ & [(_ & -> & -> & _) | (_ & -> & _ & _ & P)]);
    rewrite Eq in Hq; inversion Hq as [|? ? He Hrest]; subst.
  - simpl; apply IH; [exact Hm | exact Hrest].
  - assert (En : enqueued l1 = []).
    { destruct (enqueued l1) as [|p ps]; [reflexivity|].
      destruct (P p (or_introl eq_refl)) as (Hd & _); lia. }
    rewrite En in *; simpl; apply IH; [exact Hm|].
    simpl; rewrite app_nil_r; exact Hrest.
Qed.

End Invariants.

(** ** Breadth-first order *)

Lemma StronglySorted_app_le (l1 l2 : list Z) :
  StronglySorted Z.le l1 -> StronglySorted Z.le l2 ->
  (forall x y, In x l1 -> In y l2 -> x <= y) ->
  StronglySorted Z.le (l1 ++ l2).
Proof.
  induction 1 as [|a l1 S1 IH F1]; intros S2 H; simpl; [exact S2|].
  constructor.
  - apply IH; [exact S2|]. intros x y Hx Hy; apply H; simpl; auto.
  - apply Forall_app; split; [exact F1|].
    apply Forall_forall; intros y Hy; apply H; simpl; auto.
Qed.

Lemma StronglySorted_level (d : Z) (q : list FrontierEntry) :
  (forall p, In p q -> depth p = d) -> StronglySorted Z.le (map depth q).
Proof.
  induction q as [|p q IH]; intros H; simpl; constructor.
  - apply IH; intros; apply H; simpl; auto.
  - apply Forall_forall; intros y Hy. apply in_map_iff in Hy as (p' & <- & Hp').
    rewrite (H p (or_introl eq_refl)), (H p' (or_intror Hp')); lia.
Qed.

(** Dropping the head of the queue and pushing entries one level below
    it keeps the queue a breadth-first one. *)
Lemma bfs_window_next lo e rest pushed :
  bfs_window lo (e :: rest) ->
  (forall p, In p pushed -> depth p = depth e + 1) ->
  lo <= depth e /\ bfs_window (depth e) (rest ++ pushed).
Proof.
  intros [S F] Hp. simpl in S.
  apply StronglySorted_inv in S as [S Hhd].
  inversion F as [|? ? He Fr]; subst.
  rewrite Forall_forall in Hhd, Fr.
  split; [lia|]. split.
  - rewrite map_app. apply StronglySorted_app_le.
    + exact S.
    + apply (StronglySorted_level (depth e + 1)); exact Hp.
    + intros x y Hx Hy.
      apply in_map_iff in Hx as (p & <- & Hin).
      apply in_map_iff in Hy as (p' & <- & Hin').
      rewrite (Hp p' Hin'). specialize (Fr p Hin); lia.
  - apply Forall_app; split; apply Forall_forall; intros p Hin.
    + specialize (Fr p Hin).
      specialize (Hhd (depth p) (in_map depth _ _ Hin)); lia.
    + rewrite (Hp p Hin); lia.
Qed.

Section Order.

Variable W : World.
Variable opts : Options.
Variable browser : Browser.
Variable host : string.

Abbreviation Run := (Run W opts browser host).

(** From a breadth-first queue, entries leave the queue level by level. *)
Lemma Run_dequeued_sorted st st' l :
  Run st st' l ->
  forall lo, bfs_window lo (toVisit st) ->
  StronglySorted Z.le (map depth (dequeued l)) /\
  Forall (fun d => lo <= d) (map depth (dequeued l)).
Proof.
  induction 1 as [st C | st st1 l1 st2 l2 C I _ IH]; intros lo B.
  - simpl; split; constructor.
  - destruct (iteration_log W opts browser host st st1 l1 C I)
      as (e & rest & Eq & _ & Dq & Hcase).
    rewrite Eq in B.
    assert (Hnext : lo <= depth e /\ bfs_window (depth e) (toVisit st1)).
    { destruct Hcase as [(_ & -> & _) | (_ & -> & _ & _ & P)]; simpl.
      - rewrite <- (app_nil_r rest).
        apply bfs_window_next; [exact B | intros p []].
      - apply bfs_window_next; [exact B|].
        intros p Hp; destruct (P p Hp) as (_ & Hd & _); exact Hd. }
    destruct Hnext as [Hlo Bn].
    destruct (IH _ Bn) as [S F].
    rewrite dequeued_app, Dq; simpl. split.
    + constructor; assumption.
    + constructor; [exact Hlo|].
      apply Forall_forall; intros d Hd. rewrite Forall_forall in F.
      specialize (F d Hd); lia.
Qed.

(** *** Each URL is processed once *)

(** The processed URLs are pairwise different and were not in [seen];
    each of them costs one unit of budget and one request. *)
Lemma Run_processed st st' l :
  Run st st' l ->
  NoDup (processed l) /\
  (forall u, In u (processed l) -> JsSet.has (seen st) u = false) /\
  pagesVisited st' = pagesVisited st + Z.of_nat (List.length (processed l)) /\
  fetched l = map (fetch_url W) (processed l).
Proof.
  induction 1 as [st C | st st1 l1 st2 l2 C I _ (N & Hs & Hpv & Hf)].
  - simpl; repeat split; [constructor | intros u [] | lia].
  - unfold fetched in *; rewrite processed_app, flat_map_app, Hf.
    destruct (iteration_log W opts browser host st st1 l1 C I)
      as (e & rest & Eq & _ & _ &
          [(Hseen & -> & _ & Pr) | (Hseen & -> & Pr & Fe & _)]);
      simpl in *.
    + assert (Fn : flat_map (fun x => match x with EFetch u => [u] | _ => [] end) l1 = []).
      { destruct (iteration_cases W opts browser host st _ l1 C I)
          as (e' & rest' & Eq' & _ & [(_ & _ & ->) | (Hs' & _)]).
        - reflexivity.
        - rewrite Eq in Eq'; injection Eq' as <- <-; congruence. }
      rewrite Pr, Fn; simpl; repeat split; auto.
    + unfold fetched in Fe. rewrite Pr, Fe; simpl. repeat split.
      * constructor; [|exact N].
        intros Hin. specialize (Hs _ Hin). rewrite has_add, String.eqb_refl in Hs.
        rewrite orb_true_r in Hs; discriminate.
      * intros u [<- | Hin]; [exact Hseen|].
        specialize (Hs _ Hin). rewrite has_add in Hs.
        apply orb_false_iff in Hs as [Hs _]; exact Hs.
      * rewrite Hpv; lia.
Qed.

End Order.

(** ** The fetch and render blocks, by outcome *)

Section Outcomes.

Variable W : World.
Variable host : string.

(** A response that is not HTML leaves [html] null. *)
Lemma plain_fetch_not_html e r :
  fetch W (fetch_url W (url e)) = Ok r ->
  is_html r = false ->
  html (plain_fetch W host e) = None.
Proof.
  unfold plain_fetch, fetch_block, is_html; intros F H. run_js.
  rewrite F; simpl. destruct (ok r); simpl; rewrite H; reflexivity.
Qed.

(** The plain fetch logs the dequeue, the 'progress' event and then only
    quiet effects. *)
Lemma plain_fetch_log e :
  exists ext,
    log (plain_fetch W host e)
    = EDequeue e :: EEvent (Progress host (url e) (depth e)) :: ext
    /\ all_quiet ext.
Proof.
  unfold plain_fetch.
  destruct (fetch_block_log W host (url e)
              (mkLocals None [EDequeue e; EEvent (Progress host (url e) (depth e))]))
    as (ext & E & Q & _).
  exists ext; split; [exact E | exact Q].
Qed.


(** The render block closes the context it created exactly when none of
    its calls throws (a failing navigation is not a throw). *)
Lemma render_block_releases render u l :
  exists ext,
    log (snd (render_block host render u l)) = log l ++ ext /\
    (In (EBrowser NewContext) ext <-> exists x, newContext (render u) = Ok x) /\
    (In (EBrowser ContextClose) ext <-> render_throws (render u) = None).
Proof.
  unfold render_throws, render_block. run_js.
  destruct (newContext _); simpl;
  [destruct (newPage _); simpl;
   [destruct (goto _); simpl;
    (destruct (content _); simpl;
     [destruct (page_close _); simpl;
      [destruct (context_close _); simpl|]|])|]|];
  rewrite <- ?app_assoc; eexists; (split; [reflexivity|]); simpl;
  (split; split; intros H;
   repeat match goal with
          | H : _ \/ _ |- _ => destruct H
          | H : False |- _ => destruct H
          | H : exists _, _ |- _ => destruct H
          end;
   try discriminate; try reflexivity; eauto 10).
Qed.

End Outcomes.

(** ** [handleDomain] *)

Section HandleDomainFacts.

Variable W : World.
Variable opts : Options.
Variable browser : Browser.

(** [handleDomain] returns: some fuel is enough. *)
Lemma handleDomain_returns domain :
  exists fuel st l, handleDomain W opts browser fuel domain = Some (st, l).
Proof.
  destruct (loop_terminates W opts browser (JsString.toLowerCase domain)
              (init domain)) as (fuel & st & l & E).
  exists fuel, st, (l ++ [EEvent (DomainDone (JsString.toLowerCase domain))]).
  unfold handleDomain; rewrite E; reflexivity.
Qed.

(** Its result is a run of the loop from the initial state, followed by
    the 'domain-done' event. *)
Lemma handleDomain_Run fuel domain st l :
  handleDomain W opts browser fuel domain = Some (st, l) ->
  exists l0,
    l = l0 ++ [EEvent (DomainDone (JsString.toLowerCase domain))] /\
    Run W opts browser (JsString.toLowerCase domain) (init domain) st l0.
Proof.
  unfold handleDomain.
  destruct (loop _ _ _ _ _ _) as [[st0 l0]|] eqn:E; [|discriminate].
  intros [= <- <-]. exists l0; split; [reflexivity|].
  eapply loop_Run; exact E.
Qed.

(** The result does not depend on the fuel. *)
Lemma handleDomain_deterministic fuel1 fuel2 domain r1 r2 :
  handleDomain W opts browser fuel1 domain = Some r1 ->
  handleDomain W opts browser fuel2 domain = Some r2 ->
  r1 = r2.
Proof.
  destruct r1 as [st1 l1], r2 as [st2 l2]; intros H1 H2.
  apply handleDomain_Run in H1 as (a1 & -> & R1).
  apply handleDomain_Run in H2 as (a2 & -> & R2).
  destruct (Run_deterministic _ _ _ _ _ _ _ R1 _ _ R2) as [-> ->]; reflexivity.
Qed.

End HandleDomainFacts.

Lemma dequeued_done l d : dequeued (l ++ [EEvent (DomainDone d)]) = dequeued l.
Proof. rewrite dequeued_app; simpl; apply app_nil_r. Qed.

Lemma enqueued_done l d : enqueued (l ++ [EEvent (DomainDone d)]) = enqueued l.
Proof. rewrite enqueued_app; simpl; apply app_nil_r. Qed.

Lemma processed_done l d : processed (l ++ [EEvent (DomainDone d)]) = processed l.
Proof. rewrite processed_app; simpl; apply app_nil_r. Qed.

Lemma fetched_done l d : fetched (l ++ [EEvent (DomainDone d)]) = fetched l.
Proof. unfold fetched; rewrite flat_map_app; simpl; apply app_nil_r. Qed.

(** ** Link admission *)


(** ** What is extracted from a processed page *)

Section PageFacts.

Variable W : World.
Variable opts : Options.
Variable browser : Browser.
Variable host : string.

(** An iteration on an entry whose URL is not in [seen] extracts from
    the page's content: nothing when the content is empty; otherwise the
    images are those of the extractor, resolved against the page URL, and
    the pushed entries are the admitted links of the extractor, when the
    depth allows. *)
Lemma iteration_page st e rest :
  toVisit st = e :: rest ->
  JsSet.has (seen st) (url e) = false ->
  (falsy (page_content W browser host e) = true /\
   found_images (snd (iteration W opts browser host st)) = [] /\
   enqueued (snd (iteration W opts browser host st)) = [] /\
   toVisit (fst (iteration W opts browser host st)) = rest)
  \/
  (exists h,
     page_content W browser host e = Some h /\
     falsy (Some h) = false /\
     found_images (snd (iteration W opts browser host st))
     = map (fun img => normalizeUrl W img (url e))
           (fst (extractImagesAndLinks W h (url e))) /\
     enqueued (snd (iteration W opts browser host st))
     = (if depth e <? maxDepth opts
        then pushed_links W host (JsSet.add (seen st) (url e)) (url e) (depth e)
               (snd (extractImagesAndLinks W h (url e)))
        else [])).
Proof.
  intros Hq Hs. unfold page_content, iteration; rewrite Hq, Hs.
  destruct (render_fallback_log host browser (url e) (plain_fetch W host e))
    as (x2 & E2 & Q2 & _).
  destruct (plain_fetch_log W host e) as (x1 & E1 & Q1).
  rewrite E1 in E2.
  assert (P : found_images (log (render_fallback browser host (url e)
                                   (plain_fetch W host e))) = [] /\
              enqueued (log (render_fallback browser host (url e)
                               (plain_fetch W host e))) = []).
  { rewrite E2; simpl.
    rewrite found_images_app, enqueued_app.
    rewrite (quiet_found_images _ Q1), (quiet_found_images _ Q2),
      (quiet_enqueued _ Q1), (quiet_enqueued _ Q2); auto. }
  destruct P as [Pf Pe].
  destruct (html (render_fallback browser host (url e) (plain_fetch W host e)))
    as [h|] eqn:Eh.
  - destruct (falsy (Some h)) eqn:Ef.
    + left; simpl; auto.
    + right; exists h. split; [reflexivity|]. split; [exact Ef|].
      destruct (extractImagesAndLinks W h (url e)) as [images links]; simpl.
      rewrite !found_images_app, !enqueued_app, Pf, Pe.
      rewrite found_images_found, found_images_pushes,
        enqueued_found, enqueued_pushes.
      destruct (Z.rem (pagesVisited st + 1) 5 =? 0); simpl;
        rewrite ?app_nil_r; auto.
  - left; simpl; auto.
Qed.

End PageFacts.

(** * The traversal's guarantees *)

(** C3. For every domain, [handleDomain] returns, and when it has
    returned its [pagesVisited] counter is at most [maxPagesPerDomain]
    (for a page budget that is not negative). *)
Theorem pagesVisited_within_budget W opts browser domain :
  0 <= maxPagesPerDomain opts ->
  (exists fuel st l, handleDomain W opts browser fuel domain = Some (st, l)) /\
  (forall fuel st l,
     handleDomain W opts browser fuel domain = Some (st, l) ->
     pagesVisited st <= maxPagesPerDomain opts).
Proof.
  intros Hmax; split; [apply handleDomain_returns|].
  intros fuel st l H.
  apply handleDomain_Run in H as (l0 & _ & R).
  apply (Run_pagesVisited_le _ _ _ _ _ _ _ R); simpl; exact Hmax.
Qed.

Lemma pagesVisited_within_budget_witness :
  0 <= maxPagesPerDomain (mkOptions 3 2) /\
  exists st l,
    handleDomain (Web.five_pages Web.png) (mkOptions 3 2) None 3 "a.com"
    = Some (st, l) /\
    pagesVisited st <= maxPagesPerDomain (mkOptions 3 2).
Proof.
  split; [simpl; lia|].
  eexists _, _; split; [vm_compute; reflexivity|].
  eapply (proj2 (pagesVisited_within_budget (Web.five_pages Web.png)
                   (mkOptions 3 2) None "a.com" ltac:(simpl; lia)) 3%nat).
  vm_compute; reflexivity.
Defined.

(** C4. Every entry put on a domain's frontier - the seed entry at depth
    0 and every entry pushed for a link - has a depth of at most
    [maxDepth]; with [maxDepth = 0] no link is pushed, whatever the pages
    contain. *)
Theorem frontier_depth_within_maxDepth W opts browser domain :
  0 <= maxDepth opts ->
  (exists fuel st l, handleDomain W opts browser fuel domain = Some (st, l)) /\
  (forall fuel st l,
     handleDomain W opts browser fuel domain = Some (st, l) ->
     Forall (fun p => depth p <= maxDepth opts) (seed domain :: enqueued l) /\
     (maxDepth opts = 0 -> enqueued l = [])).
Proof.
  intros Hmax; split; [apply handleDomain_returns|].
  intros fuel st l H.
  apply handleDomain_Run in H as (l0 & -> & R).
  rewrite enqueued_done. split.
  - constructor; [simpl; exact Hmax|].
    exact (Run_enqueued_depth _ _ _ _ _ _ _ R).
  - intros H0. apply (Run_enqueued_none _ _ _ _ _ _ _ R); [lia|].
    simpl; repeat constructor; simpl; lia.
Qed.

Lemma frontier_depth_within_maxDepth_witness :
  0 <= maxDepth Web.defaults /\
  exists st l,
    handleDomain (Web.five_pages Web.png) Web.defaults None 5 "a.com"
    = Some (st, l) /\
    Forall (fun p => depth p <= maxDepth Web.defaults)
           (seed "a.com" :: enqueued l) /\
    (maxDepth Web.defaults = 0 -> enqueued l = []).
Proof.
  split; [simpl; lia|].
  eexists _, _; split; [vm_compute; reflexivity|].
  eapply (proj2 (frontier_depth_within_maxDepth (Web.five_pages Web.png)
                   Web.defaults None "a.com" ltac:(simpl; lia)) 5%nat).
  vm_compute; reflexivity.
Defined.

(** C5. Within one domain's traversal the depths of the dequeued entries
    never decrease: an entry dequeued earlier is never deeper than one
    dequeued later, so every entry of depth d leaves the queue before any
    entry of depth d+1. *)
Theorem dequeue_order_is_breadth_first W opts browser domain :
  (exists fuel st l, handleDomain W opts browser fuel domain = Some (st, l)) /\
  (forall fuel st l,
     handleDomain W opts browser fuel domain = Some (st, l) ->
     StronglySorted Z.le (map depth (dequeued l)) /\
     (forall before a between b after,
        dequeued l = before ++ a :: between ++ b :: after ->
        depth a <= depth b)).
Proof.
  split; [apply handleDomain_returns|].
  intros fuel st l H.
  apply handleDomain_Run in H as (l0 & -> & R).
  rewrite dequeued_done.
  assert (S : StronglySorted Z.le (map depth (dequeued l0))).
  { apply (Run_dequeued_sorted _ _ _ _ _ _ _ R 0).
    split; simpl; repeat constructor; simpl; lia. }
  split; [exact S|].
  intros before a between b after E. rewrite E, map_app in S; simpl in S.
  clear E. induction before as [|x before IH]; simpl in S.
  - apply StronglySorted_inv in S as [_ F].
    rewrite Forall_forall in F. apply F.
    rewrite map_app; apply in_or_app; right; left; reflexivity.
  - apply StronglySorted_inv in S as [S _]; exact (IH S).
Qed.

Lemma dequeue_order_is_breadth_first_witness :
  exists st l,
    handleDomain Web.toc_web Web.defaults None 3 "a.com" = Some (st, l) /\
    StronglySorted Z.le (map depth (dequeued l)) /\
    (forall before a between b after,
       dequeued l = before ++ a :: between ++ b :: after ->
       depth a <= depth b).
Proof.
  eexists _, _; split; [vm_compute; reflexivity|].
  eapply (proj2 (dequeue_order_is_breadth_first Web.toc_web Web.defaults None
                   "a.com") 3%nat).
  vm_compute; reflexivity.
Defined.

(** C10. A domain's frontier can hold several entries for one URL at the
    same time, yet every URL is processed - fetched and metered against
    the page budget - at most once per domain: a dequeued entry whose URL
    is already in [seen] is dropped, with no request and no change of
    [pagesVisited]. *)
Theorem url_processed_at_most_once W opts browser domain :
  (exists st l,
     handleDomain Web.toc_web (mkOptions 1 2) None 1 "a.com" = Some (st, l) /\
     toVisit st = [mkEntry "http://a.com/b" 1; mkEntry "http://a.com/b" 1]) /\
  (forall host st e rest,
     toVisit st = e :: rest ->
     JsSet.has (seen st) (url e) = true ->
     iteration W opts browser host st
     = (mkState (seen st) rest (pagesVisited st), [EDequeue e])) /\
  (exists fuel st l, handleDomain W opts browser fuel domain = Some (st, l)) /\
  (forall fuel st l,
     handleDomain W opts browser fuel domain = Some (st, l) ->
     NoDup (processed l) /\
     fetched l = map (fetch_url W) (processed l) /\
     pagesVisited st = Z.of_nat (List.length (processed l))).
Proof.
  split; [|split; [|split]].
  - eexists _, _; split; vm_compute; reflexivity.
  - intros host st e rest; apply iteration_seen.
  - apply handleDomain_returns.
  - intros fuel st l H.
    apply handleDomain_Run in H as (l0 & -> & R).
    rewrite processed_done, fetched_done.
    destruct (Run_processed _ _ _ _ _ _ _ R) as (N & _ & Hpv & Hf).
    simpl in Hpv. auto.
Qed.

Lemma url_processed_at_most_once_witness :
  exists st l,
    handleDomain Web.toc_web Web.defaults None 3 "a.com" = Some (st, l) /\
    map url (dequeued l) = ["http://a.com"; "http://a.com/b"; "http://a.com/b"] /\
    NoDup (processed l) /\
    fetched l = map (fetch_url Web.toc_web) (processed l) /\
    pagesVisited st = Z.of_nat (List.length (processed l)).
Proof.
  eexists _, _; split; [vm_compute; reflexivity|].
  split; [vm_compute; reflexivity|].
  eapply (proj2 (proj2 (proj2 (url_processed_at_most_once Web.toc_web
                                 Web.defaults None "a.com"))) 3%nat).
  vm_compute; reflexivity.
Defined.

(** C9. After any sequence of image forwards the job's result set has no
    two entries for one resolved URL: [add] receives the reference
    resolved against the page URL (the raw string when resolution fails),
    each forwarded image is in the set exactly once, and adding a URL that
    is already in the set leaves the set as it is. *)
Theorem results_hold_each_url_once W (forwards : list (string * string)) :
  let results :=
    results_after (map (fun f => normalizeUrl W (fst f) (snd f)) forwards) in
  NoDup results /\
  (forall raw base,
     In (raw, base) forwards ->
     count_occ string_dec results (normalizeUrl W raw base) = 1%nat) /\
  (forall imgUrl,
     JsSet.has results imgUrl = true -> onFoundImage results imgUrl = results) /\
  (forall raw base,
     normalizeUrl W raw base = match new_URL W raw (Some base) with
                               | Some u => href u
                               | None => raw
                               end).
Proof.
  intros results.
  assert (G : forall urls s, NoDup s ->
                NoDup (fold_left onFoundImage urls s) /\
                (forall x, In x s \/ In x urls ->
                           In x (fold_left onFoundImage urls s))).
  { induction urls as [|u urls IH]; intros s N; simpl.
    - split; [exact N | intros x [H|[]]; exact H].
    - destruct (IH (onFoundImage s u) (add_NoDup s u N)) as [N' I'].
      split; [exact N'|].
      intros x [H | [<- | H]]; apply I'; auto; left; apply has_In;
        unfold onFoundImage; rewrite has_add.
      + apply has_In in H; rewrite H; reflexivity.
      + rewrite String.eqb_refl; apply orb_true_r. }
  destruct (G (map (fun f => normalizeUrl W (fst f) (snd f)) forwards)
              JsSet.empty (NoDup_nil _)) as [N I].
  fold results in N, I.
  split; [exact N|]; split; [|split].
  - intros raw base Hin.
    apply NoDup_count_occ'; [exact N|].
    apply I; right.
    apply in_map_iff; exists (raw, base); auto.
  - intros imgUrl; apply add_member.
  - reflexivity.
Qed.

Lemma results_hold_each_url_once_witness :
  results_after (map (fun f => normalizeUrl Web.short_web (fst f) (snd f))
                   [("http://example.com/a.png", "http://example.com");
                    ("http:// not a url", "http://example.com");
                    ("http://example.com/a.png", "http://example.com/b")])
  = ["http://example.com/a.png"; "http:// not a url"] /\
  count_occ string_dec
    (results_after (map (fun f => normalizeUrl Web.short_web (fst f) (snd f))
                   [("http://example.com/a.png", "http://example.com");
                    ("http:// not a url", "http://example.com");
                    ("http://example.com/a.png", "http://example.com/b")]))
    (normalizeUrl Web.short_web "http://example.com/a.png" "http://example.com/b")
  = 1%nat.
Proof.
  split; [vm_compute; reflexivity|].
  apply (proj1 (proj2 (results_hold_each_url_once Web.short_web
           [("http://example.com/a.png", "http://example.com");
            ("http:// not a url", "http://example.com");
            ("http://example.com/a.png", "http://example.com/b")]))).
  simpl; auto.
Defined.

(** ** Pages without content, and the render fallback *)

(** C2, as stated, fails: the site's page answers with an image type, the
    browser shows it in a document with an [img] element, and the image
    of that document is forwarded. *)
Lemma non_html_page_rendered_by_browser :
  ~ non_html_page_contributes_nothing Web.logo_web Web.defaults Web.viewer
      "example.com" (init "example.com").
Proof.
  intros H.
  destruct (H (seed "example.com") [] (Web.response "image/png" "PNG")
              eq_refl eq_refl eq_refl eq_refl) as (_ & F & _).
  vm_compute in F; discriminate.
Qed.

(** C2, amended. For every dequeued entry whose URL is not in [seen],
    [pagesVisited] grows by exactly 1 whatever the fetch yields; when the
    response's content type is not HTML and no browser is available, the
    page contributes no image and no link, and still uses one unit of the
    page budget. *)
Theorem fresh_page_costs_one_unit W opts browser host st e rest :
  toVisit st = e :: rest ->
  JsSet.has (seen st) (url e) = false ->
  pagesVisited (fst (iteration W opts browser host st)) = pagesVisited st + 1 /\
  (forall r,
     browser = None ->
     fetch W (fetch_url W (url e)) = Ok r ->
     is_html r = false ->
     found_images (snd (iteration W opts browser host st)) = [] /\
     enqueued (snd (iteration W opts browser host st)) = [] /\
     toVisit (fst (iteration W opts browser host st)) = rest).
Proof.
  intros Hq Hs. split.
  - destruct (iteration_fresh W opts browser host st e rest Hq Hs)
      as (mid & imgs & pushed & periodic & -> & _); reflexivity.
  - intros r -> F H.
    unfold iteration; rewrite Hq, Hs.
    unfold render_fallback.
    rewrite (plain_fetch_not_html W host e r F H).
    destruct (plain_fetch_log W host e) as (ext & -> & Q).
    simpl. rewrite (quiet_found_images _ Q), (quiet_enqueued _ Q); auto.
Qed.

Lemma fresh_page_costs_one_unit_witness :
  pagesVisited (fst (iteration Web.logo_web Web.defaults None "example.com"
                       (init "example.com"))) = 0 + 1 /\
  found_images (snd (iteration Web.logo_web Web.defaults None "example.com"
                       (init "example.com"))) = [] /\
  enqueued (snd (iteration Web.logo_web Web.defaults None "example.com"
                   (init "example.com"))) = [] /\
  toVisit (fst (iteration Web.logo_web Web.defaults None "example.com"
                  (init "example.com"))) = [].
Proof.
  destruct (fresh_page_costs_one_unit Web.logo_web Web.defaults None
              "example.com" (init "example.com") (seed "example.com") []
              eq_refl eq_refl) as [P N].
  split; [exact P|].
  exact (N (Web.response "image/png" "PNG") eq_refl eq_refl eq_refl).
Defined.




(** ** Where the code departs from its description *)

(** C1. On the site example.com, whose page links to notexample.com, the
    link is pushed on the frontier and then requested, although its
    hostname is neither the traversal's host nor a subdomain of it: the
    test is [hostname.endsWith(host)], which any hostname with the host
    as a suffix passes. *)
Theorem host_suffix_link_is_enqueued :
  exists st l,
    handleDomain Web.partner_web Web.defaults None 2 "example.com"
    = Some (st, l) /\
    new_URL Web.partner_web "http://notexample.com/" (Some "http://example.com")
    = Some (mkUrl "http:" "notexample.com" "http://notexample.com/") /\
    "notexample.com" <> "example.com" /\
    JsString.endsWith "notexample.com" ".example.com" = false /\
    enqueued l = [mkEntry "http://notexample.com/" 1] /\
    fetched l = ["http://example.com"; "http://notexample.com/"].
Proof.
  eexists _, _; split; [vm_compute; reflexivity|].
  repeat split; try (vm_compute; reflexivity). discriminate.
Qed.

(** C6. On a site whose fifth processed page is not HTML, [pagesVisited]
    reaches 5 and no 'domain-progress' event is emitted: the branch for
    empty content counts the page and continues the loop before the
    periodic event.  With an HTML fifth page the event is emitted. *)
Theorem empty_fifth_page_skips_domain_progress :
  (exists st l,
     handleDomain (Web.five_pages Web.png) Web.defaults None 5 "a.com"
     = Some (st, l) /\
     pagesVisited st = 5 /\ domain_progress l = []) /\
  (exists st l,
     handleDomain (Web.five_pages Web.four_doc) Web.defaults None 5 "a.com"
     = Some (st, l) /\
     pagesVisited st = 5 /\ domain_progress l = [5]).
Proof.
  split; eexists _, _; (split; [vm_compute; reflexivity|]);
    split; vm_compute; reflexivity.
Qed.

(** C7. When capturing the rendered document throws, the context that
    was created is not closed: the page-processing step ends with
    [newContext] done and no [context.close].  When only the navigation
    fails, the context is closed. *)
Theorem context_not_released_when_capture_fails :
  (exists st l,
     handleDomain Web.dead_web Web.defaults Web.no_capture 1 "example.com"
     = Some (st, l) /\
     browser_ops l = [NewContext; NewPage; Goto]) /\
  (exists st l,
     handleDomain Web.dead_web Web.defaults Web.no_navigation 1 "example.com"
     = Some (st, l) /\
     browser_ops l = [NewContext; NewPage; Content; PageClose; ContextClose]).
Proof.
  split; eexists _, _; (split; [vm_compute; reflexivity|]);
    vm_compute; reflexivity.
Qed.

(** * Further properties of the traversal *)

Section TraversalFacts.

Variable W : World.
Variable opts : Options.
Variable browser : Browser.
Variable host : string.

Abbreviation Run := (Run W opts browser host).

(** The loop stops only when its condition fails. *)
Lemma Run_exit st st' l : Run st st' l -> loop_cond opts st' = false.
Proof. induction 1; assumption. Qed.

(** The counter only grows. *)
Lemma Run_pagesVisited_mono st st' l :
  Run st st' l -> pagesVisited st <= pagesVisited st'.
Proof.
  induction 1 as [st C | st st1 l1 st2 l2 C I _ IH]; [lia|].
  destruct (iteration_log W opts browser host st st1 l1 C I)
    as (e & rest & _ & _ & _ & [(_ & -> & _) | (_ & -> & _)]);
    simpl in IH; lia.
Qed.

(** [seen] grows by the processed URLs, in the order of processing. *)
Lemma Run_seen st st' l :
  Run st st' l -> seen st' = seen st ++ processed l.
Proof.
  induction 1 as [st C | st st1 l1 st2 l2 C I _ IH].
  - simpl; rewrite app_nil_r; reflexivity.
  - rewrite processed_app, IH.
    destruct (iteration_log W opts browser host st st1 l1 C I)
      as (e & rest & _ & _ & _ &
          [(_ & -> & _ & ->) | (Hs & -> & -> & _)]); simpl.
    + reflexivity.
    + unfold JsSet.add; rewrite Hs, <- app_assoc; reflexivity.
Qed.

(** Every dequeued entry was in the queue at the start or was pushed. *)
Lemma Run_dequeued_origin st st' l :
  Run st st' l ->
  forall e, In e (dequeued l) -> In e (toVisit st) \/ In e (enqueued l).
Proof.
  induction 1 as [st C | st st1 l1 st2 l2 C I _ IH]; intros x Hx; [destruct Hx|].
  rewrite dequeued_app in Hx. rewrite enqueued_app.
  destruct (iteration_log W opts browser host st st1 l1 C I)
    as (e & rest & Eq & _ & Dq & Hcase).
  rewrite Dq in Hx. destruct Hx as [<- | Hx].
  { left; rewrite Eq; left; reflexivity. }
  destruct Hcase as [(_ & -> & En & _) | (_ & -> & _)];
    destruct (IH x Hx) as [Hq | He]; simpl in *.
  - left; rewrite Eq; right; exact Hq.
  - right; apply in_or_app; right; exact He.
  - apply in_app_or in Hq as [Hq | Hq].
    + left; rewrite Eq; right; exact Hq.
    + right; apply in_or_app; left; exact Hq.
  - right; apply in_or_app; right; exact He.
Qed.

(** Every processed URL is the URL of a dequeued entry. *)
Lemma Run_processed_dequeued st st' l :
  Run st st' l ->
  forall u, In u (processed l) -> exists e, In e (dequeued l) /\ url e = u.
Proof.
  induction 1 as [st C | st st1 l1 st2 l2 C I _ IH]; intros u Hu; [destruct Hu|].
  rewrite processed_app in Hu.
  destruct (iteration_log W opts browser host st st1 l1 C I)
    as (e & rest & _ & _ & Dq & Hcase).
  rewrite dequeued_app, Dq.
  apply in_app_or in Hu as [Hu | Hu].
  - destruct Hcase as [(_ & _ & _ & Pr) | (_ & _ & Pr & _)];
      rewrite Pr in Hu; [destruct Hu|].
    destruct Hu as [<- | []]. exists e; split; [left|]; reflexivity.
  - destruct (IH u Hu) as (x & Hx & E).
    exists x; split; [right; exact Hx | exact E].
Qed.

(** The processed URL and the log projections of one iteration. *)
Lemma iteration_processed st st1 l1 e rest :
  loop_cond opts st = true ->
  iteration W opts browser host st = (st1, l1) ->
  toVisit st = e :: rest ->
  JsSet.has (seen st) (url e) = false ->
  processed l1 = [url e].
Proof.
  intros C I Hq Hs.
  destruct (iteration_log W opts browser host st st1 l1 C I)
    as (e' & rest' & Hq' & _ & _ & [(Hs' & _) | (_ & _ & Pr & _)]);
    rewrite Hq in Hq'; injection Hq' as <- <-; [congruence | exact Pr].
Qed.


(** Every forwarded image is a reference that the extractor found in the
    content of a processed page, resolved against that page's URL. *)
Lemma Run_found_from_page st st' l :
  Run st st' l ->
  forall u, In u (found_images l) ->
  exists e h img,
    In (url e) (processed l) /\
    page_content W browser host e = Some h /\
    In img (fst (extractImagesAndLinks W h (url e))) /\
    u = normalizeUrl W img (url e).
Proof.
  induction 1 as [st C | st st1 l1 st2 l2 C I _ IH]; intros u Hu; [destruct Hu|].
  rewrite found_images_app in Hu. rewrite processed_app.
  apply in_app_or in Hu as [Hu | Hu].
  - destruct (loop_cond_true opts st C) as (e & rest & Hq & _).
    destruct (JsSet.has (seen st) (url e)) eqn:Hs.
    + rewrite (iteration_seen W opts browser host st e rest Hq Hs) in I.
      injection I as <- <-. destruct Hu.
    + pose proof (iteration_processed st st1 l1 e rest C I Hq Hs) as Pr.
      destruct (iteration_page W opts browser host st e rest Hq Hs)
        as [(_ & F & _) | (h & Hh & _ & F & _)];
        rewrite I in F; simpl in F; rewrite F in Hu; [destruct Hu|].
      apply in_map_iff in Hu as (img & <- & Hin).
      exists e, h, img.
      split; [rewrite Pr; left; reflexivity|]. auto.
  - destruct (IH u Hu) as (e & h & img & Hb & Hrest).
    exists e, h, img; split; [apply in_or_app; right; exact Hb | exact Hrest].
Qed.

End TraversalFacts.

(** ** Strings *)


(** [toLowerCase] maps the Latin-1 capitals too, and leaves the
    multiplication sign alone. *)
Lemma toLowerCase_latin1 :
  JsString.toLowerCase (String "201"%char (String "215"%char "X.Com"))
  = String "233"%char (String "215"%char "x.com").
Proof. reflexivity. Qed.


(** ** What a traversal does and does not do *)

(** X1. With a page budget of zero or less, [handleDomain] requests
    nothing: it leaves the seed on the frontier, counts no page and only
    emits 'domain-done'. *)
Theorem no_budget_no_request W opts browser domain fuel :
  maxPagesPerDomain opts <= 0 ->
  handleDomain W opts browser fuel domain
  = Some (init domain, [EEvent (DomainDone (JsString.toLowerCase domain))]).
Proof.
  intros H. unfold handleDomain.
  assert (C : loop_cond opts (init domain) = false).
  { unfold loop_cond; simpl.
    replace (0 <? maxPagesPerDomain opts) with false; [reflexivity|].
    symmetry; apply Z.ltb_ge; exact H. }
  destruct fuel; simpl; rewrite C; reflexivity.
Qed.

Lemma no_budget_no_request_witness :
  handleDomain (Web.five_pages Web.png) (mkOptions 0 2) None 7 "A.com"
  = Some (init "A.com", [EEvent (DomainDone "a.com")]).
Proof.
  apply (no_budget_no_request (Web.five_pages Web.png) (mkOptions 0 2) None
           "A.com" 7%nat).
  simpl; lia.
Defined.

(** X2. A traversal ends only when the frontier is empty or the budget
    is used up: at its end either [toVisit] is empty or [pagesVisited]
    equals [maxPagesPerDomain] (for a budget that is not negative). *)
Theorem traversal_ends_empty_or_budget_spent W opts browser domain :
  0 <= maxPagesPerDomain opts ->
  (exists fuel st l, handleDomain W opts browser fuel domain = Some (st, l)) /\
  (forall fuel st l,
     handleDomain W opts browser fuel domain = Some (st, l) ->
     toVisit st = [] \/ pagesVisited st = maxPagesPerDomain opts).
Proof.
  intros Hmax; split; [apply handleDomain_returns|].
  intros fuel st l H.
  apply handleDomain_Run in H as (l0 & _ & R).
  pose proof (Run_exit _ _ _ _ _ _ _ R) as C.
  pose proof (Run_pagesVisited_le _ _ _ _ _ _ _ R Hmax) as Hle.
  unfold loop_cond in C. apply andb_false_iff in C as [C | C].
  - left. destruct (toVisit st); [reflexivity | discriminate].
  - right. apply Z.ltb_ge in C; lia.
Qed.

Lemma traversal_ends_empty_or_budget_spent_witness :
  0 <= maxPagesPerDomain (mkOptions 3 2) /\
  exists st l,
    handleDomain (Web.five_pages Web.png) (mkOptions 3 2) None 3 "a.com"
    = Some (st, l) /\
    toVisit st = [mkEntry "http://a.com/3" 1; mkEntry "http://a.com/4" 1] /\
    (toVisit st = [] \/ pagesVisited st = maxPagesPerDomain (mkOptions 3 2)).
Proof.
  split; [simpl; lia|].
  eexists _, _; split; [vm_compute; reflexivity|].
  split; [vm_compute; reflexivity|].
  eapply (proj2 (traversal_ends_empty_or_budget_spent (Web.five_pages Web.png)
                   (mkOptions 3 2) None "a.com" ltac:(simpl; lia)) 3%nat).
  vm_compute; reflexivity.
Defined.

(** X3. A traversal issues exactly [pagesVisited] requests, hence at
    most [maxPagesPerDomain] requests per domain (for a budget that is
    not negative). *)
Theorem requests_within_budget W opts browser domain :
  0 <= maxPagesPerDomain opts ->
  (exists fuel st l, handleDomain W opts browser fuel domain = Some (st, l)) /\
  (forall fuel st l,
     handleDomain W opts browser fuel domain = Some (st, l) ->
     Z.of_nat (List.length (fetched l)) = pagesVisited st /\
     Z.of_nat (List.length (fetched l)) <= maxPagesPerDomain opts).
Proof.
  intros Hmax; split; [apply handleDomain_returns|].
  intros fuel st l H.
  apply handleDomain_Run in H as (l0 & -> & R).
  rewrite fetched_done.
  destruct (Run_processed _ _ _ _ _ _ _ R) as (_ & _ & Hpv & Hf).
  pose proof (Run_pagesVisited_le _ _ _ _ _ _ _ R Hmax) as Hle.
  simpl in Hpv. rewrite Hf, length_map. lia.
Qed.

Lemma requests_within_budget_witness :
  0 <= maxPagesPerDomain (mkOptions 3 2) /\
  exists st l,
    handleDomain (Web.five_pages Web.png) (mkOptions 3 2) None 3 "a.com"
    = Some (st, l) /\
    fetched l = ["http://a.com"; "http://a.com/1"; "http://a.com/2"] /\
    Z.of_nat (List.length (fetched l)) = pagesVisited st /\
    Z.of_nat (List.length (fetched l)) <= maxPagesPerDomain (mkOptions 3 2).
Proof.
  split; [simpl; lia|].
  eexists _, _; split; [vm_compute; reflexivity|].
  split; [vm_compute; reflexivity|].
  eapply (proj2 (requests_within_budget (Web.five_pages Web.png)
                   (mkOptions 3 2) None "a.com" ltac:(simpl; lia)) 3%nat).
  vm_compute; reflexivity.
Defined.

(** X4. At the end of a traversal the set [seen] holds exactly the
    processed URLs, in the order in which they were processed, each
    once. *)
Theorem seen_is_the_processed_pages W opts browser domain :
  (exists fuel st l, handleDomain W opts browser fuel domain = Some (st, l)) /\
  (forall fuel st l,
     handleDomain W opts browser fuel domain = Some (st, l) ->
     seen st = processed l /\ NoDup (seen st)).
Proof.
  split; [apply handleDomain_returns|].
  intros fuel st l H.
  apply handleDomain_Run in H as (l0 & -> & R).
  rewrite processed_done.
  pose proof (Run_seen _ _ _ _ _ _ _ R) as E. simpl in E.
  destruct (Run_processed _ _ _ _ _ _ _ R) as (N & _).
  rewrite E; auto.
Qed.

Lemma seen_is_the_processed_pages_witness :
  exists st l,
    handleDomain Web.toc_web Web.defaults None 3 "a.com" = Some (st, l) /\
    seen st = ["http://a.com"; "http://a.com/b"] /\
    seen st = processed l /\ NoDup (seen st).
Proof.
  eexists _, _; split; [vm_compute; reflexivity|].
  split; [vm_compute; reflexivity|].
  eapply (proj2 (seen_is_the_processed_pages Web.toc_web Web.defaults None
                   "a.com") 3%nat).
  vm_compute; reflexivity.
Defined.



(** X6. A traversal only processes the seed URL [http://domain] and URLs
    it pushed on its frontier. *)
Theorem processed_pages_are_seed_or_enqueued W opts browser domain :
  (exists fuel st l, handleDomain W opts browser fuel domain = Some (st, l)) /\
  (forall fuel st l,
     handleDomain W opts browser fuel domain = Some (st, l) ->
     forall u, In u (processed l) ->
       u = ("http://" ++ domain)%string \/
       exists p, In p (enqueued l) /\ url p = u).
Proof.
  split; [apply handleDomain_returns|].
  intros fuel st l H u Hu.
  apply handleDomain_Run in H as (l0 & -> & R).
  rewrite processed_done in Hu. rewrite enqueued_done.
  destruct (Run_processed_dequeued _ _ _ _ _ _ _ R u Hu) as (e & He & <-).
  destruct (Run_dequeued_origin _ _ _ _ _ _ _ R e He) as [[<- | []] | Hq].
  - left; reflexivity.
  - right; exists e; auto.
Qed.

Lemma processed_pages_are_seed_or_enqueued_witness :
  exists st l,
    handleDomain Web.partner_web Web.defaults None 2 "example.com"
    = Some (st, l) /\
    In "http://notexample.com/" (processed l) /\
    ("http://notexample.com/" = "http://example.com" \/
     exists p, In p (enqueued l) /\ url p = "http://notexample.com/").
Proof.
  eexists _, _; split; [vm_compute; reflexivity|].
  split; [vm_compute; right; left; reflexivity|].
  refine (proj2 (processed_pages_are_seed_or_enqueued Web.partner_web
                   Web.defaults None "example.com") 2%nat _ _ _
            "http://notexample.com/" _);
    [vm_compute; reflexivity | vm_compute; right; left; reflexivity].
Defined.

(** ** Periodic progress *)

Lemma domain_progress_found (f : string -> string) imgs :
  domain_progress (map (fun i => EFoundImage (f i)) imgs) = [].
Proof. induction imgs as [|i imgs IH]; simpl; congruence. Qed.

Lemma domain_progress_pushes q : domain_progress (map EEnqueue q) = [].
Proof. induction q as [|e q IH]; simpl; congruence. Qed.

Section ProgressFacts.

Variable W : World.
Variable opts : Options.
Variable browser : Browser.
Variable host : string.

(** One iteration emits at most one 'domain-progress' event; it carries
    the new value of [pagesVisited], a multiple of 5. *)
Lemma iteration_domain_progress st st1 l1 :
  loop_cond opts st = true ->
  iteration W opts browser host st = (st1, l1) ->
  pagesVisited st <= pagesVisited st1 /\
  (domain_progress l1 = [] \/
   (domain_progress l1 = [pagesVisited st1] /\
    pagesVisited st1 = pagesVisited st + 1 /\
    Z.rem (pagesVisited st1) 5 = 0)).
Proof.
  intros C I.
  destruct (loop_cond_true opts st C) as (e & rest & Hq & _).
  destruct (JsSet.has (seen st) (url e)) eqn:Hs.
  - rewrite (iteration_seen W opts browser host st e rest Hq Hs) in I.
    injection I as <- <-; simpl; split; [lia | left; reflexivity].
  - unfold iteration in I; rewrite Hq, Hs in I.
    destruct (render_fallback_log host browser (url e) (plain_fetch W host e))
      as (x2 & E2 & Q2 & _).
    destruct (plain_fetch_log W host e) as (x1 & E1 & Q1).
    rewrite E1 in E2.
    assert (D : domain_progress
                  (log (render_fallback browser host (url e)
                          (plain_fetch W host e))) = []).
    { rewrite E2; simpl. rewrite domain_progress_app,
        (quiet_domain_progress _ Q1), (quiet_domain_progress _ Q2); reflexivity. }
    destruct (html (render_fallback _ _ _ _)) as [h|];
      [destruct (falsy (Some h))|];
      try (injection I as <- <-; simpl; split; [lia | left; exact D]).
    destruct (extractImagesAndLinks W h (url e)) as [images links].
    injection I as <- <-; simpl; split; [lia|].
    rewrite !domain_progress_app, D, domain_progress_found, domain_progress_pushes.
    simpl. destruct (Z.rem (pagesVisited st + 1) 5 =? 0) eqn:R.
    + right; apply Z.eqb_eq in R; auto.
    + left; reflexivity.
Qed.

Lemma Run_domain_progress st st' l :
  Run W opts browser host st st' l ->
  Forall (fun n => pagesVisited st < n <= pagesVisited st' /\ Z.rem n 5 = 0)
         (domain_progress l) /\
  StronglySorted Z.lt (domain_progress l).
Proof.
  induction 1 as [st C | st st1 l1 st2 l2 C I R [F S]].
  - simpl; split; constructor.
  - pose proof (Run_pagesVisited_mono _ _ _ _ _ _ _ R) as M.
    destruct (iteration_domain_progress st st1 l1 C I) as [Hle D].
    assert (F' : Forall (fun n => pagesVisited st < n <= pagesVisited st2
                                  /\ Z.rem n 5 = 0) (domain_progress l2)).
    { eapply Forall_impl; [|exact F]. simpl; intros n Hn; lia. }
    rewrite domain_progress_app.
    destruct D as [-> | (-> & E & Hr)]; simpl; [auto|].
    split.
    + constructor; [lia | exact F'].
    + constructor; [exact S|].
      eapply Forall_impl; [|exact F]. simpl; intros n Hn; lia.
Qed.

End ProgressFacts.

(** X7. Every 'domain-progress' event of a traversal carries a positive
    multiple of 5 that is at most the final [pagesVisited], and the
    values carried grow from one event to the next. *)
Theorem domain_progress_counts_by_five W opts browser domain :
  (exists fuel st l, handleDomain W opts browser fuel domain = Some (st, l)) /\
  (forall fuel st l,
     handleDomain W opts browser fuel domain = Some (st, l) ->
     Forall (fun n => 0 < n <= pagesVisited st /\ Z.rem n 5 = 0)
            (domain_progress l) /\
     StronglySorted Z.lt (domain_progress l)).
Proof.
  split; [apply handleDomain_returns|].
  intros fuel st l H.
  apply handleDomain_Run in H as (l0 & -> & R).
  rewrite domain_progress_app; simpl; rewrite app_nil_r.
  exact (Run_domain_progress _ _ _ _ _ _ _ R).
Qed.

Lemma domain_progress_counts_by_five_witness :
  exists st l,
    handleDomain (Web.five_pages Web.four_doc) Web.defaults None 5 "a.com"
    = Some (st, l) /\
    domain_progress l = [5] /\
    Forall (fun n => 0 < n <= pagesVisited st /\ Z.rem n 5 = 0)
           (domain_progress l) /\
    StronglySorted Z.lt (domain_progress l).
Proof.
  eexists _, _; split; [vm_compute; reflexivity|].
  split; [vm_compute; reflexivity|].
  eapply (proj2 (domain_progress_counts_by_five (Web.five_pages Web.four_doc)
                   Web.defaults None "a.com") 5%nat).
  vm_compute; reflexivity.
Defined.

(** ** Browser contexts *)

Lemma browser_ops_app l1 l2 : browser_ops (l1 ++ l2) = browser_ops l1 ++ browser_ops l2.
Proof. apply flat_map_app. Qed.

Lemma count_op_app o l1 l2 : count_op o (l1 ++ l2) = (count_op o l1 + count_op o l2)%nat.
Proof. unfold count_op; rewrite browser_ops_app; apply count_occ_app. Qed.

Lemma browser_ops_found (f : string -> string) imgs :
  browser_ops (map (fun i => EFoundImage (f i)) imgs) = [].
Proof. induction imgs as [|i imgs IH]; simpl; congruence. Qed.

Lemma browser_ops_pushes q : browser_ops (map EEnqueue q) = [].
Proof. induction q as [|e q IH]; simpl; congruence. Qed.

Section ContextFacts.

Variable W : World.
Variable opts : Options.
Variable browser : Browser.
Variable host : string.

(** The fetch block does not touch the browser. *)
Lemma fetch_block_ops u l :
  browser_ops (log (snd (fetch_block W host u l))) = browser_ops (log l).
Proof.
  unfold fetch_block. run_js.
  destruct (fetch W _) as [r|m]; simpl.
  - destruct (ok r); simpl;
      (destruct (JsString.includes _ _); simpl;
       [destruct (text r); simpl|]);
      rewrite ?browser_ops_app; simpl; rewrite ?app_nil_r; reflexivity.
  - rewrite ?browser_ops_app; simpl; rewrite ?app_nil_r; reflexivity.
Qed.

(** The render block creates one context at most and closes no more than
    it created; it closes what it created when no call throws. *)
Lemma render_block_counts render u l :
  exists ext,
    log (snd (render_block host render u l)) = log l ++ ext /\
    (count_op NewContext ext <= 1)%nat /\
    (count_op ContextClose ext <= count_op NewContext ext)%nat /\
    (render_throws (render u) = None ->
     count_op ContextClose ext = count_op NewContext ext).
Proof.
  unfold render_throws, render_block. run_js.
  destruct (newContext _); simpl;
  [destruct (newPage _); simpl;
   [destruct (goto _); simpl;
    (destruct (content _); simpl;
     [destruct (page_close _); simpl;
      [destruct (context_close _); simpl|]|])|]|];
  rewrite <- ?app_assoc; eexists; (split; [reflexivity|]);
  unfold count_op; simpl;
  (split; [lia|]; split; [lia|]; intros H; (reflexivity || discriminate)).
Qed.

Lemma render_fallback_counts u l :
  exists ext,
    log (render_fallback browser host u l) = log l ++ ext /\
    (count_op NewContext ext <= 1)%nat /\
    (count_op ContextClose ext <= count_op NewContext ext)%nat /\
    (no_render_throws browser -> count_op ContextClose ext = count_op NewContext ext) /\
    (browser = None -> ext = []).
Proof.
  unfold render_fallback, no_render_throws.
  destruct browser as [render|].
  - destruct (needs_render _).
    + destruct (render_block_counts render u l) as (ext & E & A & B & C).
      exists ext; repeat (split; [assumption|]). split; [|discriminate].
      intros H; apply C, (H render u eq_refl).
    + exists []; rewrite app_nil_r; unfold count_op; simpl; auto 6.
  - exists []; rewrite app_nil_r; unfold count_op; simpl; auto 6.
Qed.

(** One iteration. *)
Lemma iteration_counts st st1 l1 :
  loop_cond opts st = true ->
  iteration W opts browser host st = (st1, l1) ->
  (count_op NewContext l1 <= List.length (processed l1))%nat /\
  (count_op ContextClose l1 <= count_op NewContext l1)%nat /\
  (no_render_throws browser -> count_op ContextClose l1 = count_op NewContext l1) /\
  (browser = None -> browser_ops l1 = []).
Proof.
  intros C I.
  destruct (iteration_log W opts browser host st st1 l1 C I)
    as (e0 & rest0 & Hq0 & _ & _ & Hcase).
  destruct (loop_cond_true opts st C) as (e & rest & Hq & _).
  rewrite Hq in Hq0; injection Hq0 as <- <-.
  destruct (JsSet.has (seen st) (url e)) eqn:Hs.
  - rewrite (iteration_seen W opts browser host st e rest Hq Hs) in I.
    injection I as <- <-; unfold count_op; simpl; auto.
  - assert (Pr : processed l1 = [url e]).
    { destruct Hcase as [(Hs' & _) | (_ & _ & Pr & _)]; [congruence | exact Pr]. }
    rewrite Pr; clear Hcase Pr.
    unfold iteration in I; rewrite Hq, Hs in I.
    destruct (render_fallback_counts (url e) (plain_fetch W host e))
      as (x2 & E2 & A & B & Cn & N).
    assert (E1 : browser_ops (log (plain_fetch W host e)) = []).
    { unfold plain_fetch; rewrite fetch_block_ops; reflexivity. }
    assert (K : forall o, count_op o (log (render_fallback browser host (url e)
                                             (plain_fetch W host e)))
                          = count_op o x2).
    { intros o; rewrite E2, count_op_app.
      unfold count_op at 1; rewrite E1; reflexivity. }
    assert (T : forall tail, browser_ops tail = [] ->
              (count_op NewContext
                 (log (render_fallback browser host (url e)
                         (plain_fetch W host e)) ++ tail) <= 1)%nat /\
              (count_op ContextClose (log (render_fallback browser host (url e)
                         (plain_fetch W host e)) ++ tail)
               <= count_op NewContext (log (render_fallback browser host (url e)
                         (plain_fetch W host e)) ++ tail))%nat /\
              (no_render_throws browser ->
               count_op ContextClose (log (render_fallback browser host (url e)
                         (plain_fetch W host e)) ++ tail)
               = count_op NewContext (log (render_fallback browser host (url e)
                         (plain_fetch W host e)) ++ tail)) /\
              (browser = None ->
               browser_ops (log (render_fallback browser host (url e)
                         (plain_fetch W host e)) ++ tail) = [])).
    { intros tail Ht. rewrite !count_op_app, !K.
      unfold count_op at 2 4 6 8 10; rewrite Ht; simpl.
      rewrite !Nat.add_0_r. repeat (split; [assumption|]).
      intros Hn. rewrite browser_ops_app, Ht, E2, browser_ops_app, E1, (N Hn).
      reflexivity. }
    destruct (html (render_fallback _ _ _ _)) as [h|];
      [destruct (falsy (Some h))|];
      try (injection I as <- <-; simpl;
           specialize (T [] eq_refl); rewrite app_nil_r in T; exact T).
    destruct (extractImagesAndLinks W h (url e)) as [images links].
    injection I as <- <-; simpl. apply T.
    rewrite !browser_ops_app, browser_ops_found, browser_ops_pushes; simpl.
    destruct (Z.rem _ 5 =? 0); reflexivity.
Qed.

Lemma Run_counts st st' l :
  Run W opts browser host st st' l ->
  (count_op NewContext l <= List.length (processed l))%nat /\
  (count_op ContextClose l <= count_op NewContext l)%nat /\
  (no_render_throws browser -> count_op ContextClose l = count_op NewContext l) /\
  (browser = None -> browser_ops l = []).
Proof.
  induction 1 as [st C | st st1 l1 st2 l2 C I _ (A & B & Cn & N)].
  - unfold count_op; simpl; auto.
  - destruct (iteration_counts st st1 l1 C I) as (A1 & B1 & C1 & N1).
    rewrite !count_op_app, processed_app, length_app, browser_ops_app.
    repeat split; try lia.
    + intros H; rewrite (Cn H), (C1 H); reflexivity.
    + intros H; rewrite (N H), (N1 H); reflexivity.
Qed.

End ContextFacts.

(** X8. A traversal creates at most one browser context per processed
    page and closes no more contexts than it created; without a browser
    it makes no browser call at all. *)
Theorem one_context_per_page_at_most W opts browser domain :
  (exists fuel st l, handleDomain W opts browser fuel domain = Some (st, l)) /\
  (forall fuel st l,
     handleDomain W opts browser fuel domain = Some (st, l) ->
     (count_op NewContext l <= List.length (processed l))%nat /\
     (count_op ContextClose l <= count_op NewContext l)%nat /\
     (browser = None -> browser_ops l = [])).
Proof.
  split; [apply handleDomain_returns|].
  intros fuel st l H.
  apply handleDomain_Run in H as (l0 & -> & R).
  destruct (Run_counts _ _ _ _ _ _ _ R) as (A & B & _ & N).
  rewrite !count_op_app, processed_done, browser_ops_app.
  unfold count_op at 2 4 6; simpl. rewrite !Nat.add_0_r, app_nil_r. auto.
Qed.

Lemma one_context_per_page_at_most_witness :
  exists st l,
    handleDomain Web.dead_web Web.defaults Web.no_capture 1 "example.com"
    = Some (st, l) /\
    count_op NewContext l = 1%nat /\
    (count_op NewContext l <= List.length (processed l))%nat /\
    (count_op ContextClose l <= count_op NewContext l)%nat /\
    (Web.no_capture = None -> browser_ops l = []).
Proof.
  eexists _, _; split; [vm_compute; reflexivity|].
  split; [vm_compute; reflexivity|].
  eapply (proj2 (one_context_per_page_at_most Web.dead_web Web.defaults
                   Web.no_capture "example.com") 1%nat).
  vm_compute; reflexivity.
Defined.

(** X9. When no browser call throws during a traversal - navigation may
    still fail, since that failure is swallowed - every browser context
    that was created is closed. *)
Theorem contexts_closed_when_no_call_throws W opts browser domain :
  no_render_throws browser ->
  (exists fuel st l, handleDomain W opts browser fuel domain = Some (st, l)) /\
  (forall fuel st l,
     handleDomain W opts browser fuel domain = Some (st, l) ->
     count_op ContextClose l = count_op NewContext l).
Proof.
  intros Hn; split; [apply handleDomain_returns|].
  intros fuel st l H.
  apply handleDomain_Run in H as (l0 & -> & R).
  destruct (Run_counts _ _ _ _ _ _ _ R) as (_ & _ & C & _).
  rewrite !count_op_app, (C Hn); reflexivity.
Qed.

Lemma contexts_closed_when_no_call_throws_witness :
  no_render_throws Web.no_navigation /\
  exists st l,
    handleDomain Web.dead_web Web.defaults Web.no_navigation 1 "example.com"
    = Some (st, l) /\
    count_op NewContext l = 1%nat /\
    count_op ContextClose l = count_op NewContext l.
Proof.
  assert (Hn : no_render_throws Web.no_navigation).
  { intros render u [= <-]; reflexivity. }
  split; [exact Hn|].
  eexists _, _; split; [vm_compute; reflexivity|].
  split; [vm_compute; reflexivity|].
  eapply (proj2 (contexts_closed_when_no_call_throws Web.dead_web Web.defaults
                   Web.no_navigation "example.com" Hn) 1%nat).
  vm_compute; reflexivity.
Defined.

(** ** Pages with content *)

Section ContentFacts.

Variable W : World.
Variable host : string.

(** An HTML response whose body can be read becomes [html]; a status
    outside 2xx is recorded as a warning first. *)
Lemma plain_fetch_html e r t :
  fetch W (fetch_url W (url e)) = Ok r ->
  is_html r = true ->
  text r = Ok t ->
  html (plain_fetch W host e) = Some t /\
  (ok r = false ->
   In (EEvent (WarnHttp host (url e) (status r))) (log (plain_fetch W host e))).
Proof.
  unfold plain_fetch, fetch_block, is_html; intros F H T. run_js.
  rewrite F; simpl. destruct (ok r); simpl; rewrite H; simpl; rewrite T; simpl.
  - split; [reflexivity | discriminate].
  - split; [reflexivity|]. intros _. right; right; right; left; reflexivity.
Qed.

End ContentFacts.

(** X10. A page answered with an HTML body of 50 characters or more is
    extracted whatever its HTTP status and its depth: every extracted
    image reference is forwarded, resolved against the page URL; a status
    outside 2xx only adds a warn event; at depth [maxDepth] or deeper no
    link of the page is pushed. *)
Theorem html_page_images_forwarded W opts browser host st e rest r t :
  toVisit st = e :: rest ->
  JsSet.has (seen st) (url e) = false ->
  fetch W (fetch_url W (url e)) = Ok r ->
  is_html r = true ->
  text r = Ok t ->
  needs_render (Some t) = false ->
  found_images (snd (iteration W opts browser host st))
  = map (fun img => normalizeUrl W img (url e))
        (fst (extractImagesAndLinks W t (url e))) /\
  (ok r = false ->
   In (EEvent (WarnHttp host (url e) (status r)))
      (snd (iteration W opts browser host st))) /\
  (maxDepth opts <= depth e ->
   enqueued (snd (iteration W opts browser host st)) = [] /\
   toVisit (fst (iteration W opts browser host st)) = rest).
Proof.
  intros Hq Hs F H T Hn.
  destruct (plain_fetch_html W host e r t F H T) as [Eh Hw].
  destruct (plain_fetch_log W host e) as (x1 & E1 & Q1).
  assert (Hf : falsy (Some t) = false).
  { unfold needs_render in Hn; apply orb_false_iff in Hn as [Hn _]; exact Hn. }
  assert (R : render_fallback browser host (url e) (plain_fetch W host e)
              = plain_fetch W host e).
  { unfold render_fallback; rewrite Eh, Hn; destruct browser; reflexivity. }
  unfold iteration; rewrite Hq, Hs, R, Eh, Hf.
  destruct (extractImagesAndLinks W t (url e)) as [images links]; simpl.
  rewrite E1. split; [|split].
  - cbn [found_images flat_map app].
    fold (found_images (x1 ++
            map (fun img => EFoundImage (normalizeUrl W img (url e))) images ++
            map EEnqueue (if depth e <? maxDepth opts
                          then pushed_links W host (JsSet.add (seen st) (url e))
                                 (url e) (depth e) links
                          else []) ++
            (if Z.rem (pagesVisited st + 1) 5 =? 0
             then [EEvent (DomainProgress host (pagesVisited st + 1))]
             else []))).
    rewrite !found_images_app, (quiet_found_images _ Q1), found_images_found,
      found_images_pushes.
    destruct (Z.rem _ 5 =? 0); simpl; rewrite app_nil_r; reflexivity.
  - intros Hok. specialize (Hw Hok). rewrite E1 in Hw.
    destruct Hw as [Hw | [Hw | Hw]]; try discriminate.
    right; right; apply in_or_app; left; exact Hw.
  - intros Hd.
    replace (depth e <? maxDepth opts) with false
      by (symmetry; apply Z.ltb_ge; exact Hd).
    split; [|apply app_nil_r].
    cbn [enqueued flat_map app map].
    fold (enqueued (x1 ++
            map (fun img => EFoundImage (normalizeUrl W img (url e))) images ++
            (if Z.rem (pagesVisited st + 1) 5 =? 0
             then [EEvent (DomainProgress host (pagesVisited st + 1))]
             else []))).
    rewrite !enqueued_app, (quiet_enqueued _ Q1), enqueued_found.
    destruct (Z.rem _ 5 =? 0); reflexivity.
Qed.

Lemma html_page_images_forwarded_witness :
  found_images (snd (iteration ErrorPage.web (mkOptions 20 0) Web.viewer
                       "example.com" (init "example.com")))
  = ["http://example.com/logo.png"] /\
  In (EEvent (WarnHttp "example.com" "http://example.com" 404))
     (snd (iteration ErrorPage.web (mkOptions 20 0) Web.viewer
             "example.com" (init "example.com"))) /\
  enqueued (snd (iteration ErrorPage.web (mkOptions 20 0) Web.viewer
                   "example.com" (init "example.com"))) = [] /\
  toVisit (fst (iteration ErrorPage.web (mkOptions 20 0) Web.viewer
                  "example.com" (init "example.com"))) = [].
Proof.
  destruct (html_page_images_forwarded ErrorPage.web (mkOptions 20 0)
              Web.viewer "example.com" (init "example.com")
              (seed "example.com") []
              (mkResponse false 404 (Some "text/html") (Ok ErrorPage.body))
              ErrorPage.body eq_refl eq_refl eq_refl eq_refl eq_refl eq_refl)
    as (F & Wn & D).
  split; [exact F|]. split; [exact (Wn eq_refl)|].
  apply D; simpl; lia.
Defined.

(** * index.js *)

(** ** The event buffer and the event stream *)

Lemma tl_skipn {A : Type} (k : nat) (l : list A) : tl (skipn k l) = skipn (S k) l.
Proof.
  revert l; induction k as [|k IH]; intros [|a l]; simpl; auto.
Qed.

(** Pushing on the last [n] elements and dropping the head when there
    are more than [n] gives the last [n] elements again. *)
Lemma lastn_push {A : Type} (n : nat) (l : list A) (a : A) :
  (0 < n)%nat ->
  (if Z.of_nat n <? Z.of_nat (List.length (lastn n l ++ [a]))
   then tl (lastn n l ++ [a]) else lastn n l ++ [a])
  = lastn n (l ++ [a]).
Proof.
  intros Hn. unfold lastn.
  rewrite !length_app, length_skipn; simpl.
  destruct (Nat.le_gt_cases n (List.length l)) as [Hle | Hgt].
  - replace (Z.of_nat n <? _) with true by (symmetry; apply Z.ltb_lt; lia).
    set (k := (List.length l - n)%nat).
    replace (List.length l + 1 - n)%nat with (S k) by lia.
    rewrite skipn_app.
    replace (S k - List.length l)%nat with O by lia.
    rewrite <- (tl_skipn k l).
    destruct (skipn k l) as [|x xs] eqn:E; [|reflexivity].
    apply (f_equal (@List.length A)) in E. rewrite length_skipn in E.
    simpl in E; lia.
  - replace (Z.of_nat n <? _) with false by (symmetry; apply Z.ltb_ge; lia).
    replace (List.length l - n)%nat with O by lia.
    replace (List.length l + 1 - n)%nat with O by lia.
    reflexivity.
Qed.

Section ServerFacts.

Variable Evt : Type.

Abbreviation Server := (Index.Server Evt).

Lemma set_job_same jobId job (s : Server) :
  Index.JOBS (Index.set_job jobId job s) jobId = Some job.
Proof. simpl; rewrite String.eqb_refl; reflexivity. Qed.

(** [sendEvent] on a job that exists. *)
Lemma sendEvent_job jobId evt job (s : Server) :
  Index.JOBS s jobId = Some job ->
  Index.JOBS (Index.sendEvent jobId evt s) jobId
  = Some (Index.mkJob (Index.job_status job)
            (if 2000 <? Z.of_nat (List.length (Index.job_events job ++ [evt]))
             then tl (Index.job_events job ++ [evt])
             else Index.job_events job ++ [evt])
            (Index.results job) (Index.sseRes job)) /\
  Index.written (Index.sendEvent jobId evt s)
  = Index.written s ++ match Index.sseRes job with
                       | Some conn => [(conn, evt)]
                       | None => []
                       end.
Proof.
  intros H; unfold Index.sendEvent; rewrite H.
  destruct (Index.sseRes job); simpl; rewrite String.eqb_refl, ?app_nil_r; auto.
Qed.

(** After any number of [sendEvent]s the buffer holds the last 2000
    events, and each event was written to the attached connection. *)
Lemma send_all_job jobId evts : forall job (s : Server),
  Index.JOBS s jobId = Some job ->
  (List.length (Index.job_events job) <= 2000)%nat ->
  Index.JOBS (Index.send_all jobId evts s) jobId
  = Some (Index.mkJob (Index.job_status job)
            (lastn 2000 (Index.job_events job ++ evts))
            (Index.results job) (Index.sseRes job)) /\
  Index.written (Index.send_all jobId evts s)
  = Index.written s ++ match Index.sseRes job with
                       | Some conn => map (fun evt => (conn, evt)) evts
                       | None => []
                       end.
Proof.
  induction evts as [|evt evts IH] using rev_ind; intros job s H Hlen.
  - simpl; rewrite !app_nil_r. split.
    + rewrite H. unfold lastn.
      replace (List.length (Index.job_events job) - 2000)%nat with O by lia.
      destruct job; reflexivity.
    + destruct (Index.sseRes job); simpl; rewrite ?app_nil_r; reflexivity.
  - unfold Index.send_all in *. rewrite fold_left_app; simpl.
    destruct (IH job s H Hlen) as [J Wr].
    destruct (sendEvent_job jobId evt _ _ J) as [J' Wr'].
    cbn [Index.job_status Index.job_events Index.results Index.sseRes] in J', Wr'.
    split.
    + rewrite J'. f_equal. f_equal.
      rewrite app_assoc.
      apply (lastn_push 2000 (Index.job_events job ++ evts) evt). lia.
    + rewrite Wr', Wr, <- app_assoc.
      destruct (Index.sseRes job); [rewrite map_app|]; reflexivity.
Qed.

End ServerFacts.

(** X11. The event buffer of a job holds the last 2000 events sent to
    it, oldest first: after any number of [sendEvent]s on a job whose
    buffer was within the cap, the buffer is the last 2000 of the old
    buffer followed by the events sent, and the job's status, results and
    attached connection are as before. *)
Theorem event_buffer_keeps_last_2000 (Evt : Type) jobId (evts : list Evt)
    job (s : Index.Server Evt) :
  Index.JOBS s jobId = Some job ->
  (List.length (Index.job_events job) <= 2000)%nat ->
  exists job',
    Index.JOBS (Index.send_all jobId evts s) jobId = Some job' /\
    Index.job_events job' = lastn 2000 (Index.job_events job ++ evts) /\
    (List.length (Index.job_events job') <= 2000)%nat /\
    Index.job_status job' = Index.job_status job /\
    Index.results job' = Index.results job /\
    Index.sseRes job' = Index.sseRes job.
Proof.
  intros H Hlen.
  destruct (send_all_job Evt jobId evts job s H Hlen) as [J _].
  eexists; split; [exact J|]; simpl.
  repeat split. unfold lastn; rewrite length_skipn; lia.
Qed.

Lemma event_buffer_keeps_last_2000_witness :
  exists job',
    Index.JOBS
      (Index.send_all "job" (seq 0 2003)
         (Index.set_job "job" (Index.mkJob Index.queued [] JsSet.empty None)
            (Index.mkServer (fun _ => None) []))) "job" = Some job' /\
    Index.job_events job' = seq 3 2000.
Proof.
  destruct (event_buffer_keeps_last_2000 nat "job" (seq 0 2003)
              (Index.mkJob Index.queued [] JsSet.empty None)
              (Index.set_job "job" (Index.mkJob Index.queued [] JsSet.empty None)
                 (Index.mkServer (fun _ => None) []))
              eq_refl ltac:(simpl; lia)) as (job' & J & E & _).
  exists job'; split; [exact J|].
  rewrite E; vm_compute; reflexivity.
Defined.

Lemma frames_to_app {Evt : Type} conn (a b : list (nat * Evt)) :
  frames_to conn (a ++ b) = frames_to conn a ++ frames_to conn b.
Proof. apply flat_map_app. Qed.

Lemma frames_to_same {Evt : Type} conn (evts : list Evt) :
  frames_to conn (map (fun evt => (conn, evt)) evts) = evts.
Proof.
  induction evts as [|e evts IH]; simpl; [reflexivity|].
  rewrite Nat.eqb_refl; simpl. fold (@frames_to Evt conn). rewrite IH; reflexivity.
Qed.

Lemma frames_to_other {Evt : Type} conn c (evts : list Evt) :
  c <> conn -> frames_to conn (map (fun evt => (c, evt)) evts) = [].
Proof.
  intros Hc. induction evts as [|e evts IH]; simpl; [reflexivity|].
  apply Nat.eqb_neq in Hc; rewrite Hc; simpl. exact IH.
Qed.

Lemma sent_to_app {Evt : Type} jobId (a b : list (StreamRequest Evt)) :
  sent_to jobId (a ++ b) = sent_to jobId a ++ sent_to jobId b.
Proof. apply flat_map_app. Qed.

Section StreamFacts.

Variable Evt : Type.
Variable jobId : string.
Variable conn : nat.

Abbreviation attached := (stream_attached jobId conn).

Lemma set_job_other k j job (s : Index.Server Evt) :
  k <> j -> Index.JOBS (Index.set_job j job s) k = Index.JOBS s k.
Proof.
  intros H; simpl. apply String.eqb_neq in H; rewrite H; reflexivity.
Qed.

(** A change of another job that does not attach [conn] keeps [conn]
    attached to [jobId] alone. *)
Lemma attached_other_job j job' (s : Index.Server Evt) w :
  attached s -> j <> jobId -> Index.sseRes job' <> Some conn ->
  attached (Index.mkServer (Index.JOBS (Index.set_job j job' s)) w).
Proof.
  intros [(job & J & A) F] Hj Hc. split.
  - exists job; split; [|exact A].
    simpl. apply not_eq_sym, String.eqb_neq in Hj. rewrite Hj; exact J.
  - intros k jobk Hk Jk. simpl in Jk.
    destruct (String.eqb_spec k j) as [-> | Hkj].
    + injection Jk as <-; exact Hc.
    + exact (F k jobk Hk Jk).
Qed.

(** One request that leaves the stream alone: the connection stays
    attached and gets exactly the event sent to its job, if any. *)
Lemma handle_request_attached (s : Index.Server Evt) r :
  attached s ->
  leaves_stream jobId conn r ->
  attached (handle_request s r) /\
  frames_to conn (Index.written (handle_request s r))
  = frames_to conn (Index.written s) ++ sent_to jobId [r].
Proof.
  intros Att L. pose proof Att as [(job & J & A) F].
  destruct r as [j evt | j c | j c]; simpl handle_request; simpl sent_to.
  - destruct (String.eqb_spec j jobId) as [-> | Hj].
    + unfold Index.sendEvent; rewrite J, A. simpl Index.written.
      rewrite frames_to_app; simpl frames_to. rewrite Nat.eqb_refl; simpl.
      split; [|reflexivity]. split.
      * eexists; split; [simpl; rewrite String.eqb_refl; reflexivity|].
        reflexivity.
      * intros k jobk Hk Jk. simpl in Jk.
        apply String.eqb_neq in Hk; rewrite Hk in Jk.
        apply String.eqb_neq in Hk. exact (F k jobk Hk Jk).
    + rewrite app_nil_r. unfold Index.sendEvent.
      destruct (Index.JOBS s j) as [jobj|] eqn:Jj; [|auto].
      pose proof (F j jobj Hj Jj) as Hc.
      destruct (Index.sseRes jobj) as [c|] eqn:Sj.
      * split.
        -- apply (attached_other_job j _ s _ Att Hj). simpl; congruence.
        -- simpl Index.written. rewrite frames_to_app; simpl.
           assert (Hne : c <> conn) by congruence.
           apply Nat.eqb_neq in Hne; rewrite Hne; simpl.
           rewrite app_nil_r; reflexivity.
      * split; [|reflexivity].
        apply (attached_other_job j _ s (Index.written s) Att Hj).
        simpl; congruence.
  - destruct L as [Hj Hc]. rewrite app_nil_r. unfold Index.events_get.
    destruct (Index.JOBS s j) as [jobj|] eqn:Jj; simpl snd; [|auto].
    split.
    + apply (attached_other_job j _ _ _ Att Hj). simpl; congruence.
    + simpl Index.written. rewrite frames_to_app, (frames_to_other conn c _ Hc).
      rewrite app_nil_r; reflexivity.
  - rewrite app_nil_r. unfold Index.events_close.
    destruct (Index.JOBS s j) as [jobj|] eqn:Jj; [|auto].
    split; [|reflexivity].
    apply (attached_other_job j _ s (Index.written s) Att L). simpl; discriminate.
Qed.

Lemma serve_attached requests : forall (s : Index.Server Evt),
  attached s ->
  Forall (leaves_stream jobId conn) requests ->
  frames_to conn (Index.written (serve requests s))
  = frames_to conn (Index.written s) ++ sent_to jobId requests.
Proof.
  unfold serve.
  induction requests as [|r requests IH]; intros s Att F; simpl fold_left.
  - simpl; rewrite app_nil_r; reflexivity.
  - inversion F as [|? ? Hr Hrs]; subst.
    destruct (handle_request_attached s r Att Hr) as [Att' E].
    rewrite (IH _ Att' Hrs), E, <- app_assoc.
    f_equal. change (r :: requests) with ([r] ++ requests).
    rewrite sent_to_app; reflexivity.
Qed.

(** Opening the stream writes the backlog and attaches the connection. *)
Lemma events_get_attached job (s : Index.Server Evt) :
  Index.JOBS s jobId = Some job ->
  conn_free jobId conn s ->
  attached (snd (Index.events_get jobId conn s)) /\
  frames_to conn (Index.written (snd (Index.events_get jobId conn s)))
  = frames_to conn (Index.written s) ++ Index.job_events job.
Proof.
  intros J F. unfold Index.events_get; rewrite J; simpl snd. split.
  - split.
    + eexists; split; [simpl; rewrite String.eqb_refl; reflexivity | reflexivity].
    + intros k jobk Hk Jk. simpl in Jk.
      apply String.eqb_neq in Hk; rewrite Hk in Jk.
      apply String.eqb_neq in Hk. exact (F k jobk Hk Jk).
  - simpl Index.written. rewrite frames_to_app, frames_to_same; reflexivity.
Qed.

End StreamFacts.

(** X12. A client that opens the event stream of a job gets the buffered
    events first and then every event sent to the job, each once and in
    the order of sending, for as long as no other client opens the job's
    stream and no connection of the job's stream closes - whatever is
    sent to other jobs and whichever streams of other jobs are opened (on
    other connections) or closed in between. *)
Theorem subscriber_gets_backlog_then_live (Evt : Type) jobId conn
    (requests : list (StreamRequest Evt)) job (s : Index.Server Evt) :
  Index.JOBS s jobId = Some job ->
  conn_free jobId conn s ->
  Forall (leaves_stream jobId conn) requests ->
  fst (Index.events_get jobId conn s) = Index.EventStream /\
  frames_to conn
    (Index.written (serve requests (snd (Index.events_get jobId conn s))))
  = frames_to conn (Index.written s)
    ++ Index.job_events job ++ sent_to jobId requests.
Proof.
  intros J F L.
  destruct (events_get_attached Evt jobId conn job s J F) as [Att E].
  split; [unfold Index.events_get; rewrite J; reflexivity|].
  rewrite (serve_attached Evt jobId conn requests _ Att L), E, <- app_assoc.
  reflexivity.
Qed.

Lemma subscriber_gets_backlog_then_live_witness :
  frames_to 7%nat
    (Index.written
       (serve [Send "job" 3; Send "other" 9; Open "other" 8; Send "job" 4;
               Close "other" 8; Send "other" 10]%nat
          (snd (Index.events_get "job" 7%nat
                  (Index.set_job "other"
                     (Index.mkJob Index.running [5]%nat JsSet.empty None)
                     (Index.set_job "job"
                        (Index.mkJob Index.running [1; 2]%nat JsSet.empty None)
                        (Index.mkServer (fun _ => None) [])))))))
  = [1; 2; 3; 4]%nat.
Proof.
  refine (proj2 (subscriber_gets_backlog_then_live nat "job" 7%nat
                  [Send "job" 3; Send "other" 9; Open "other" 8; Send "job" 4;
                   Close "other" 8; Send "other" 10]%nat
                  (Index.mkJob Index.running [1; 2]%nat JsSet.empty None)
                  (Index.set_job "other"
                     (Index.mkJob Index.running [5]%nat JsSet.empty None)
                     (Index.set_job "job"
                        (Index.mkJob Index.running [1; 2]%nat JsSet.empty None)
                        (Index.mkServer (fun _ => None) [])))
                  eq_refl _ _)).
  - intros k job' Hk Jk. simpl in Jk.
    destruct (String.eqb k "other"); [injection Jk as <-; discriminate|].
    destruct (String.eqb_spec k "job") as [-> | _]; [congruence | discriminate].
  - repeat constructor; discriminate.
Defined.

(** X13. Only one connection per job gets live events, and the 'close'
    handler detaches whatever connection is attached: when a second
    client has opened the stream and the first client's connection then
    closes, the second client gets no further event, although the events
    are still buffered. *)
Theorem late_close_detaches_new_subscriber (Evt : Type) jobId c1 c2
    (evts : list Evt) job (s : Index.Server Evt) :
  Index.JOBS s jobId = Some job ->
  (List.length (Index.job_events job) <= 2000)%nat ->
  let s3 := Index.events_close jobId c1
              (snd (Index.events_get jobId c2
                      (snd (Index.events_get jobId c1 s)))) in
  Index.written (Index.send_all jobId evts s3) = Index.written s3 /\
  exists job',
    Index.JOBS (Index.send_all jobId evts s3) jobId = Some job' /\
    Index.job_events job' = lastn 2000 (Index.job_events job ++ evts) /\
    Index.sseRes job' = None.
Proof.
  intros H Hlen s3.
  assert (J3 : Index.JOBS s3 jobId
               = Some (Index.mkJob (Index.job_status job) (Index.job_events job)
                         (Index.results job) None)).
  { subst s3. unfold Index.events_get at 2; rewrite H; simpl snd.
    unfold Index.events_get; rewrite set_job_same; simpl snd.
    unfold Index.events_close; rewrite set_job_same.
    apply set_job_same. }
  destruct (send_all_job Evt jobId evts _ s3 J3 Hlen) as [J Wr].
  simpl in J, Wr. split.
  - rewrite Wr; apply app_nil_r.
  - eexists; split; [exact J|]; auto.
Qed.

Lemma late_close_detaches_new_subscriber_witness :
  Index.written
    (Index.send_all "job" [3; 4]%nat
       (Index.events_close "job" 1%nat
          (snd (Index.events_get "job" 2%nat
                  (snd (Index.events_get "job" 1%nat
                          (Index.set_job "job"
                             (Index.mkJob Index.running [1; 2]%nat
                                JsSet.empty None)
                             (Index.mkServer (fun _ => None) []))))))))
  = [(1, 1); (1, 2); (2, 1); (2, 2)]%nat.
Proof.
  rewrite (proj1 (late_close_detaches_new_subscriber nat "job" 1%nat 2%nat
                    [3; 4]%nat
                    (Index.mkJob Index.running [1; 2]%nat JsSet.empty None)
                    (Index.set_job "job"
                       (Index.mkJob Index.running [1; 2]%nat JsSet.empty None)
                       (Index.mkServer (fun _ => None) []))
                    eq_refl ltac:(simpl; lia))).
  reflexivity.
Defined.

(** ** The result set *)

Lemma results_fold urls : forall s,
  NoDup s ->
  NoDup (fold_left onFoundImage urls s) /\
  (forall x, In x (fold_left onFoundImage urls s) <-> In x s \/ In x urls).
Proof.
  induction urls as [|u urls IH]; intros s N; simpl.
  - split; [exact N | intros x; tauto].
  - destruct (IH (onFoundImage s u) (add_NoDup s u N)) as [N' I'].
    split; [exact N'|]. intros x; rewrite I'.
    unfold onFoundImage. rewrite <- !has_In, has_add, orb_true_iff, String.eqb_eq.
    rewrite !has_In. intuition congruence.
Qed.

Lemma results_after_members l :
  NoDup (results_after l) /\ forall x, In x (results_after l) <-> In x l.
Proof.
  destruct (results_fold l JsSet.empty (NoDup_nil _)) as [N I].
  split; [exact N|]. intros x; rewrite (I x); simpl; tauto.
Qed.

Lemma results_after_size l :
  JsSet.size (results_after l) = Z.of_nat (List.length (nodup string_dec l)).
Proof.
  destruct (results_after_members l) as [N I]. unfold JsSet.size. f_equal.
  apply Permutation_length, NoDup_Permutation;
    [exact N | apply NoDup_nodup |].
  intros x; rewrite I, nodup_In; tauto.
Qed.

(** X14. The result set of a job holds exactly the image URLs that were
    forwarded; its size, which the 'done' event reports, is the number of
    distinct forwarded URLs; neither depends on the order in which the
    domains' images arrive. *)
Theorem result_set_is_the_forwarded_urls (imgUrls : list string) :
  (forall x, In x (results_after imgUrls) <-> In x imgUrls) /\
  JsSet.size (results_after imgUrls)
  = Z.of_nat (List.length (nodup string_dec imgUrls)) /\
  (forall other,
     Permutation imgUrls other ->
     JsSet.size (results_after other) = JsSet.size (results_after imgUrls) /\
     (forall x, In x (results_after other) <-> In x (results_after imgUrls))).
Proof.
  split; [apply results_after_members|]. split; [apply results_after_size|].
  intros other P. split.
  - unfold JsSet.size; f_equal.
    destruct (results_after_members imgUrls) as [N1 I1],
             (results_after_members other) as [N2 I2].
    apply Permutation_length, NoDup_Permutation; [exact N2 | exact N1|].
    intros x; rewrite I1, I2. split; apply Permutation_in;
      [apply Permutation_sym|]; exact P.
  - intros x. rewrite (proj2 (results_after_members other) x),
      (proj2 (results_after_members imgUrls) x).
    split; apply Permutation_in; [apply Permutation_sym|]; exact P.
Qed.

Lemma result_set_is_the_forwarded_urls_witness :
  JsSet.size (results_after ["b"; "a"; "a"]) = 2 /\
  JsSet.size (results_after ["b"; "a"; "a"])
  = JsSet.size (results_after ["a"; "b"; "a"]).
Proof.
  split; [vm_compute; reflexivity|].
  apply (proj2 (proj2 (result_set_is_the_forwarded_urls ["a"; "b"; "a"]))
           ["b"; "a"; "a"]).
  apply perm_swap.
Defined.

(** ** The job of [/start] *)

Lemma lastn_snoc {A : Type} (n : nat) (l : list A) (a : A) :
  (0 < n)%nat -> lastn n (l ++ [a]) = skipn (List.length l + 1 - n) l ++ [a].
Proof.
  intros Hn; unfold lastn. rewrite length_app, skipn_app; simpl.
  replace (List.length l + 1 - n - List.length l)%nat with O by lia.
  reflexivity.
Qed.

Lemma lastn_length {A : Type} (n : nat) (l : list A) :
  (List.length (lastn n l) <= n)%nat.
Proof. unfold lastn; rewrite length_skipn; lia. Qed.

Lemma lastn_cap {A : Type} (n : nat) (m : list A) (a : A) :
  (0 < n)%nat -> (List.length m <= n)%nat ->
  lastn n (m ++ [a])
  = if Z.of_nat n <? Z.of_nat (List.length (m ++ [a]))
    then tl (m ++ [a]) else m ++ [a].
Proof.
  intros Hn Hm. unfold lastn. rewrite length_app; simpl.
  destruct (Nat.le_gt_cases (List.length m + 1) n) as [Hle | Hgt].
  - replace (_ + 1 - n)%nat with O by lia.
    replace (_ <? _) with false; [reflexivity|].
    symmetry; apply Z.ltb_ge; lia.
  - replace (_ + 1 - n)%nat with 1%nat by lia.
    replace (_ <? _) with true; [|symmetry; apply Z.ltb_lt; lia].
    destruct (m ++ [a]); reflexivity.
Qed.

Lemma lastn_lastn_push {A : Type} (n : nat) (l : list A) (a : A) :
  (0 < n)%nat -> lastn n (lastn n l ++ [a]) = lastn n (l ++ [a]).
Proof.
  intros Hn. rewrite (lastn_cap n (lastn n l) a Hn (lastn_length n l)).
  apply lastn_push; exact Hn.
Qed.

Lemma forwarded_app {C : Type} (a b : list (Index.Callback C)) :
  forwarded (a ++ b) = forwarded a ++ forwarded b.
Proof. apply flat_map_app. Qed.

Lemma crawler_events_app {C : Type} (a b : list (Index.Callback C)) :
  crawler_events (a ++ b) = crawler_events a ++ crawler_events b.
Proof. apply flat_map_app. Qed.

Section JobFacts.

Variable C : Type.
Variable W : World.
Variable crawl : list string -> list (Index.Callback C) * result unit.

Abbreviation Server := (Index.Server (Index.JobEvent C)).

Lemma sendEvent_one jobId evt job (s : Server) :
  Index.JOBS s jobId = Some job ->
  (List.length (Index.job_events job) <= 2000)%nat ->
  Index.JOBS (Index.sendEvent jobId evt s) jobId
  = Some (Index.mkJob (Index.job_status job)
            (lastn 2000 (Index.job_events job ++ [evt]))
            (Index.results job) (Index.sseRes job)).
Proof.
  intros H Hlen.
  exact (proj1 (send_all_job _ jobId [evt] job s H Hlen)).
Qed.

Lemma set_status_job jobId st job (s : Server) :
  Index.JOBS s jobId = Some job ->
  Index.JOBS (Index.set_status jobId st s) jobId
  = Some (Index.mkJob st (Index.job_events job) (Index.results job)
            (Index.sseRes job)).
Proof. intros H; unfold Index.set_status; rewrite H; apply set_job_same. Qed.

Lemma add_result_job jobId u job (s : Server) :
  Index.JOBS s jobId = Some job ->
  Index.JOBS (Index.add_result jobId u s) jobId
  = Some (Index.mkJob (Index.job_status job) (Index.job_events job)
            (onFoundImage (Index.results job) u) (Index.sseRes job)).
Proof. intros H; unfold Index.add_result; rewrite H; apply set_job_same. Qed.

(** The crawler's calls add its events to the buffer and its images to
    the result set, and change nothing else of the job. *)
Lemma callbacks_job jobId calls : forall job (s : Server),
  Index.JOBS s jobId = Some job ->
  (List.length (Index.job_events job) <= 2000)%nat ->
  Index.JOBS (fold_left (Index.callback C jobId) calls s) jobId
  = Some (Index.mkJob (Index.job_status job)
            (lastn 2000 (Index.job_events job
                         ++ map Index.FromCrawler (crawler_events calls)))
            (fold_left onFoundImage (forwarded calls) (Index.results job))
            (Index.sseRes job)).
Proof.
  induction calls as [|c calls IH] using rev_ind; intros job s H Hlen.
  - simpl; rewrite app_nil_r, H. unfold lastn.
    replace (List.length (Index.job_events job) - 2000)%nat with O by lia.
    destruct job; reflexivity.
  - rewrite fold_left_app; simpl.
    specialize (IH job s H Hlen).
    rewrite forwarded_app, crawler_events_app, map_app, fold_left_app.
    destruct c as [evt | u]; simpl.
    + rewrite (sendEvent_one jobId _ _ _ IH (lastn_length _ _)); simpl.
      rewrite lastn_lastn_push by lia. rewrite <- app_assoc; reflexivity.
    + rewrite (add_result_job jobId _ _ _ IH); simpl.
      rewrite ?app_nil_r; reflexivity.
Qed.

End JobFacts.

Section JobRun.

Variable C : Type.
Variable W : World.
Variable crawl : list string -> list (Index.Callback C) * result unit.

Abbreviation Server := (Index.Server (Index.JobEvent C)).

Lemma job_failed_job jobId message job (s : Server) :
  Index.JOBS s jobId = Some job ->
  (List.length (Index.job_events job) <= 2000)%nat ->
  Index.JOBS (Index.job_failed C jobId message s) jobId
  = Some (Index.mkJob Index.failed
            (lastn 2000 (Index.job_events job ++ [Index.JobError message]))
            (Index.results job) (Index.sseRes job)).
Proof.
  intros H Hlen. unfold Index.job_failed.
  rewrite (set_status_job C jobId _ _ _ (sendEvent_one C jobId _ _ _ H Hlen)).
  reflexivity.
Qed.

(** The job after [run_job], by the outcome of the source request and of
    the crawler. *)
Lemma run_job_job jobId source job (s : Server) :
  Index.JOBS s jobId = Some job ->
  (List.length (Index.job_events job) <= 2000)%nat ->
  let buffered := lastn 2000 (Index.job_events job ++ [Index.SourceDownloading]) in
  Index.JOBS (Index.run_job C W crawl jobId source s) jobId
  = Some
      match fetch W (fetch_url W source) with
      | Throw message =>
          Index.mkJob Index.failed
            (lastn 2000 (buffered ++ [Index.JobError message]))
            (Index.results job) (Index.sseRes job)
      | Ok r =>
          if negb (ok r)
          then Index.mkJob Index.failed
                 (lastn 2000 (buffered ++ [Index.SourceError (status r)]))
                 (Index.results job) (Index.sseRes job)
          else
            match text r with
            | Throw message =>
                Index.mkJob Index.failed
                  (lastn 2000 (buffered ++ [Index.JobError message]))
                  (Index.results job) (Index.sseRes job)
            | Ok body =>
                let domains := parse_domains body in
                let crawled :=
                  lastn 2000
                    (lastn 2000
                       (buffered
                        ++ [Index.DomainsLoaded (Z.of_nat (List.length domains))])
                     ++ map Index.FromCrawler
                          (crawler_events (fst (crawl domains)))) in
                let found :=
                  fold_left onFoundImage (forwarded (fst (crawl domains)))
                            (Index.results job) in
                match snd (crawl domains) with
                | Throw message =>
                    Index.mkJob Index.failed
                      (lastn 2000 (crawled ++ [Index.JobError message]))
                      found (Index.sseRes job)
                | Ok _ =>
                    Index.mkJob Index.done
                      (lastn 2000 (crawled ++ [Index.Finished (JsSet.size found)]))
                      found (Index.sseRes job)
                end
            end
      end.
Proof.
  intros H Hlen buffered. unfold Index.run_job.
  pose proof (sendEvent_one C jobId Index.SourceDownloading job s H Hlen) as J1.
  fold buffered in J1.
  assert (L1 : (List.length buffered <= 2000)%nat) by apply lastn_length.
  destruct (fetch W (fetch_url W source)) as [r | message].
  2: { rewrite (job_failed_job jobId message _ _ J1 L1); reflexivity. }
  destruct (ok r); simpl negb; cbv iota.
  2: { rewrite (set_status_job C jobId _ _ _
                  (sendEvent_one C jobId _ _ _ J1 L1)); reflexivity. }
  destruct (text r) as [body | message].
  2: { rewrite (job_failed_job jobId message _ _ J1 L1); reflexivity. }
  cbv zeta.
  pose proof (set_status_job C jobId Index.running _ _
                (sendEvent_one C jobId
                   (Index.DomainsLoaded
                      (Z.of_nat (List.length (parse_domains body)))) _ _ J1 L1))
    as J3.
  cbn [Index.job_status Index.job_events Index.results Index.sseRes] in J3.
  pose proof (callbacks_job C jobId (fst (crawl (parse_domains body))) _ _ J3
                (lastn_length _ _)) as J4.
  cbn [Index.job_status Index.job_events Index.results Index.sseRes] in J4.
  destruct (snd (crawl (parse_domains body))) as [u | message].
  - pose proof (set_status_job C jobId Index.done _ _ J4) as J5.
    cbn [Index.job_status Index.job_events Index.results Index.sseRes] in J5.
    unfold Index.results_size. rewrite J5.
    rewrite (sendEvent_one C jobId _ _ _ J5 (lastn_length _ _)).
    reflexivity.
  - rewrite (job_failed_job jobId message _ _ J4 (lastn_length _ _)).
    reflexivity.
Qed.

End JobRun.

(** X15. A job started by [/start] with a source ends with status
    'done' or 'failed', never 'queued' or 'running'; it is 'done' exactly
    when the source was fetched with an ok status, its body was read and
    the crawler returned. *)
Theorem job_ends_done_or_failed (C : Type) W
    (crawl : list string -> list (Index.Callback C) * result unit)
    source jobId (s : Index.Server (Index.JobEvent C)) :
  String.eqb source "" = false ->
  fst (Index.start C W crawl (Some source) jobId s) = Index.JobId jobId /\
  exists job,
    Index.JOBS (snd (Index.start C W crawl (Some source) jobId s)) jobId
    = Some job /\
    (Index.job_status job = Index.done \/ Index.job_status job = Index.failed) /\
    (Index.job_status job = Index.done <->
     exists r body,
       fetch W (fetch_url W source) = Ok r /\ ok r = true /\
       text r = Ok body /\ snd (crawl (parse_domains body)) = Ok tt).
Proof.
  intros Hs. unfold Index.start; rewrite Hs; simpl fst; simpl snd.
  split; [reflexivity|].
  eexists; split.
  { apply (run_job_job C W crawl jobId source
             (Index.mkJob Index.queued [] JsSet.empty None)).
    - apply set_job_same.
    - simpl; lia. }
  destruct (fetch W (fetch_url W source)) as [r | m].
  2: { simpl; split; [auto|]. split; [discriminate|].
       intros (r & body & E & _); discriminate. }
  destruct (ok r) eqn:Hok; simpl negb; cbv iota.
  2: { simpl; split; [auto|]. split; [discriminate|].
       intros (r' & body & [= <-] & E & _); congruence. }
  destruct (text r) as [body | m] eqn:Ht.
  2: { simpl; split; [auto|]. split; [discriminate|].
       intros (r' & body & [= <-] & _ & E & _); congruence. }
  cbv zeta.
  destruct (snd (crawl (parse_domains body))) as [[] | m] eqn:Hc.
  - simpl; split; [auto|]. split; [|reflexivity].
    intros _; exists r, body; auto.
  - simpl; split; [auto|]. split; [discriminate|].
    intros (r' & body' & [= <-] & _ & E & Hc').
    rewrite Ht in E; injection E as <-. congruence.
Qed.

(** X16. When the source answers with a status that is not ok, the job
    fails without reading a domain list or running the crawler: its
    events are the two of index.js, the second carrying the status, and
    its result set is empty. *)
Theorem source_error_fails_job (C : Type) W
    (crawl : list string -> list (Index.Callback C) * result unit)
    source jobId (s : Index.Server (Index.JobEvent C)) r :
  String.eqb source "" = false ->
  fetch W (fetch_url W source) = Ok r ->
  ok r = false ->
  exists job,
    Index.JOBS (snd (Index.start C W crawl (Some source) jobId s)) jobId
    = Some job /\
    Index.job_status job = Index.failed /\
    Index.job_events job
    = [Index.SourceDownloading; Index.SourceError (status r)] /\
    Index.results job = JsSet.empty.
Proof.
  intros Hs F Hok. unfold Index.start; rewrite Hs; simpl snd.
  eexists; split.
  { apply (run_job_job C W crawl jobId source
             (Index.mkJob Index.queued [] JsSet.empty None)).
    - apply set_job_same.
    - simpl; lia. }
  rewrite F, Hok; simpl. repeat split.
Qed.

(** X17. When the source was read and the crawler returned, the job is
    'done', its result set holds the image URLs that the crawler
    forwarded, and its last event is the 'done' event, which reports the
    number of distinct forwarded URLs. *)
Theorem done_event_reports_distinct_images (C : Type) W
    (crawl : list string -> list (Index.Callback C) * result unit)
    source jobId (s : Index.Server (Index.JobEvent C)) r body calls :
  String.eqb source "" = false ->
  fetch W (fetch_url W source) = Ok r ->
  ok r = true ->
  text r = Ok body ->
  crawl (parse_domains body) = (calls, Ok tt) ->
  exists job before,
    Index.JOBS (snd (Index.start C W crawl (Some source) jobId s)) jobId
    = Some job /\
    Index.job_status job = Index.done /\
    Index.results job = results_after (forwarded calls) /\
    Index.job_events job
    = before ++ [Index.Finished
                   (Z.of_nat (List.length (nodup string_dec (forwarded calls))))].
Proof.
  intros Hs F Hok Ht Hc. unfold Index.start; rewrite Hs; simpl snd.
  eexists; eexists; split.
  { apply (run_job_job C W crawl jobId source
             (Index.mkJob Index.queued [] JsSet.empty None)).
    - apply set_job_same.
    - simpl; lia. }
  rewrite F, Hok; simpl negb; cbv iota. rewrite Ht; cbv zeta. rewrite Hc.
  cbn [fst snd Index.job_status Index.job_events Index.results].
  split; [reflexivity|]. split; [reflexivity|].
  rewrite lastn_snoc by lia.
  fold (results_after (forwarded calls)).
  rewrite results_after_size. reflexivity.
Qed.

Lemma job_ends_done_or_failed_witness :
  exists job,
    Index.JOBS (snd (Index.start string Source.web Source.crawl
                       (Some "http://lists.example/domains.txt") "job-1"
                       Source.no_jobs)) "job-1" = Some job /\
    Index.job_status job = Index.done.
Proof.
  destruct (proj2 (job_ends_done_or_failed string Source.web Source.crawl
                     "http://lists.example/domains.txt" "job-1" Source.no_jobs
                     eq_refl)) as (job & J & _ & D).
  exists job; split; [exact J|].
  apply D. eexists _, _; repeat split; reflexivity.
Defined.

Lemma source_error_fails_job_witness :
  exists job,
    Index.JOBS (snd (Index.start string Source.web Source.crawl
                       (Some "http://lists.example/gone.txt") "job-2"
                       Source.no_jobs)) "job-2" = Some job /\
    Index.job_status job = Index.failed /\
    Index.job_events job = [Index.SourceDownloading; Index.SourceError 410] /\
    Index.results job = JsSet.empty.
Proof.
  exact (source_error_fails_job string Source.web Source.crawl
           "http://lists.example/gone.txt" "job-2" Source.no_jobs
           (mkResponse false 410 (Some "text/plain") (Ok "gone"))
           eq_refl eq_refl eq_refl).
Defined.

Lemma done_event_reports_distinct_images_witness :
  exists job before,
    Index.JOBS (snd (Index.start string Source.web Source.crawl
                       (Some "http://lists.example/domains.txt") "job-1"
                       Source.no_jobs)) "job-1" = Some job /\
    Index.job_status job = Index.done /\
    Index.results job = ["http://cdn.example/logo.png"] /\
    Index.job_events job = before ++ [Index.Finished 1].
Proof.
  exact (done_event_reports_distinct_images string Source.web Source.crawl
           "http://lists.example/domains.txt" "job-1" Source.no_jobs
           (Web.response "text/plain" Source.list_body) Source.list_body
           (fst (Source.crawl ["a.com"; "b.com"]))
           eq_refl eq_refl eq_refl eq_refl eq_refl).
Defined.

(** * Text handling: the domain list and [srcset] *)

(** ** [trim] *)

Lemma trimEnd_nonspace c s :
  JsText.is_space c = false ->
  JsText.trimEnd (String c s) = String c (JsText.trimEnd s).
Proof. intros H; simpl; destruct (JsText.trimEnd s); rewrite ?H; reflexivity. Qed.

Lemma trimEnd_idem s : JsText.trimEnd (JsText.trimEnd s) = JsText.trimEnd s.
Proof.
  induction s as [|c s IH]; [reflexivity|].
  simpl. destruct (JsText.trimEnd s) as [|c' t] eqn:E.
  - destruct (JsText.is_space c) eqn:Hc; [reflexivity|].
    simpl; rewrite Hc; reflexivity.
  - change (JsText.trimEnd (String c (String c' t)) = String c (String c' t)).
    simpl. simpl in IH. destruct (JsText.trimEnd t) as [|c'' t'] eqn:E'.
    + destruct (JsText.is_space c'); [discriminate|]. rewrite IH; reflexivity.
    + rewrite IH; reflexivity.
Qed.

Lemma trimStart_head s :
  JsText.trimStart s = EmptyString \/
  exists c t, JsText.trimStart s = String c t /\ JsText.is_space c = false.
Proof.
  induction s as [|c s IH]; simpl; [left; reflexivity|].
  destruct (JsText.is_space c) eqn:Hc; [exact IH|].
  right; exists c, s; auto.
Qed.

(** Trimming twice is trimming once. *)
Lemma trim_idem s : JsText.trim (JsText.trim s) = JsText.trim s.
Proof.
  unfold JsText.trim.
  destruct (trimStart_head s) as [-> | (c & t & -> & Hc)]; [reflexivity|].
  rewrite (trimEnd_nonspace c t Hc). simpl JsText.trimStart. rewrite Hc.
  rewrite <- (trimEnd_nonspace c t Hc). apply trimEnd_idem.
Qed.

Lemma contains_char_trimStart x s :
  contains_char x s = false -> contains_char x (JsText.trimStart s) = false.
Proof.
  induction s as [|c s IH]; simpl; [auto|].
  intros H; apply orb_false_iff in H as [H1 H2].
  destruct (JsText.is_space c); [auto|]. simpl; rewrite H1, H2; reflexivity.
Qed.

Lemma contains_char_trimEnd x s :
  contains_char x s = false -> contains_char x (JsText.trimEnd s) = false.
Proof.
  induction s as [|c s IH]; simpl; [auto|].
  intros H; apply orb_false_iff in H as [H1 H2]. specialize (IH H2).
  destruct (JsText.trimEnd s) as [|c' t].
  - destruct (JsText.is_space c); simpl; rewrite ?H1; reflexivity.
  - cbn [contains_char]. cbn [contains_char] in IH. rewrite H1, IH; reflexivity.
Qed.

Lemma contains_char_trim x s :
  contains_char x s = false -> contains_char x (JsText.trim s) = false.
Proof. intros H; apply contains_char_trimEnd, contains_char_trimStart, H. Qed.

(** ** Lines *)

Lemma split_lines_cons s : exists piece pieces, JsText.split_lines s = piece :: pieces.
Proof.
  induction s as [|c s (p & ps & IH)]; simpl; [eauto|].
  destruct (Ascii.eqb c JsText.LF); [eauto|].
  destruct (Ascii.eqb c JsText.CR && JsText.starts_with_LF s)%bool; [eauto|].
  rewrite IH; eauto.
Qed.

(** No piece of [split(/\r?\n/)] contains a line feed. *)
Lemma split_lines_no_LF s :
  Forall (fun piece => contains_char JsText.LF piece = false)
         (JsText.split_lines s).
Proof.
  induction s as [|c s IH]; simpl; [repeat constructor|].
  destruct (Ascii.eqb c JsText.LF) eqn:E; [constructor; [reflexivity | exact IH]|].
  destruct (Ascii.eqb c JsText.CR && JsText.starts_with_LF s)%bool; [exact IH|].
  destruct (JsText.split_lines s) as [|p ps]; [repeat constructor; simpl|].
  - rewrite E; reflexivity.
  - inversion IH as [|? ? Hp Hps]; subst.
    constructor; [simpl; rewrite E, Hp; reflexivity | exact Hps].
Qed.

(** X18. Every domain of a job's domain list is a non-empty string
    without surrounding white space and without a line feed. *)
Theorem parsed_domains_are_clean (text : string) :
  Forall (fun d => d <> EmptyString /\ JsText.trim d = d /\
                   contains_char JsText.LF d = false)
         (parse_domains text).
Proof.
  unfold parse_domains. apply Forall_forall; intros d Hd.
  apply filter_In in Hd as [Hin Ht].
  apply in_map_iff in Hin as (piece & <- & Hp).
  split; [|split].
  - unfold JsText.truthy in Ht. intros E; rewrite E in Ht; discriminate.
  - apply trim_idem.
  - apply contains_char_trim.
    pose proof (split_lines_no_LF text) as F. rewrite Forall_forall in F.
    exact (F piece Hp).
Qed.

Lemma trimEnd_snoc_space s c :
  JsText.is_space c = true ->
  JsText.trimEnd (s ++ String c EmptyString) = JsText.trimEnd s.
Proof.
  intros Hc; induction s as [|a s IH]; simpl.
  - rewrite Hc; reflexivity.
  - rewrite IH; reflexivity.
Qed.

Lemma trimStart_app s t :
  JsText.trimStart (s ++ t)
  = if String.eqb (JsText.trimStart s) EmptyString
    then JsText.trimStart t else (JsText.trimStart s ++ t)%string.
Proof.
  induction s as [|a s IH]; simpl; [reflexivity|].
  destruct (JsText.is_space a); [exact IH | reflexivity].
Qed.

(** A trailing white space character does not change the trimmed
    string. *)
Lemma trim_snoc_space s c :
  JsText.is_space c = true ->
  JsText.trim (s ++ String c EmptyString) = JsText.trim s.
Proof.
  intros Hc; unfold JsText.trim. rewrite trimStart_app.
  destruct (String.eqb_spec (JsText.trimStart s) EmptyString) as [-> | _].
  - simpl; rewrite Hc; reflexivity.
  - apply trimEnd_snoc_space, Hc.
Qed.

Lemma split_lines_one l :
  contains_char JsText.LF l = false -> JsText.split_lines l = [l].
Proof.
  induction l as [|c l IH]; simpl; [reflexivity|].
  intros H; apply orb_false_iff in H as [H1 H2].
  rewrite H1. specialize (IH H2).
  replace (JsText.starts_with_LF l) with false.
  - rewrite andb_false_r, IH; reflexivity.
  - destruct l as [|c' l']; [reflexivity|]. simpl in *.
    apply orb_false_iff in H2 as [H2 _]; rewrite H2; reflexivity.
Qed.

(** A line followed by a line feed is one piece, without the carriage
    return that ends it, if any. *)
Lemma split_lines_line l rest :
  contains_char JsText.LF l = false ->
  exists piece,
    JsText.split_lines (l ++ String JsText.LF rest)
    = piece :: JsText.split_lines rest /\
    (l = piece \/ l = (piece ++ String JsText.CR EmptyString)%string).
Proof.
  induction l as [|c l IH]; simpl.
  - intros _; exists EmptyString; auto.
  - intros H; apply orb_false_iff in H as [H1 H2]. rewrite H1.
    destruct (IH H2) as (piece & E & Hp).
    destruct (Ascii.eqb c JsText.CR
              && JsText.starts_with_LF (l ++ String JsText.LF rest))%bool eqn:G.
    + apply andb_true_iff in G as [Gc Gl].
      destruct l as [|c' l'].
      * exists EmptyString. split; [simpl; reflexivity|].
        right; apply Ascii.eqb_eq in Gc; subst c; reflexivity.
      * simpl in Gl, H2. apply orb_false_iff in H2 as [H2 _]. congruence.
    + rewrite E. exists (String c piece); split; [reflexivity|].
      destruct Hp as [-> | ->]; [left | right]; reflexivity.
Qed.

Lemma trimmed_lines lines :
  lines <> [] ->
  Forall (fun l => contains_char JsText.LF l = false) lines ->
  map JsText.trim
      (JsText.split_lines (String.concat (String JsText.LF EmptyString) lines))
  = map JsText.trim lines.
Proof.
  induction lines as [|l lines IH]; [congruence|].
  intros _ F. inversion F as [|? ? Hl Hls]; subst.
  destruct lines as [|l2 lines].
  - simpl. rewrite (split_lines_one l Hl); reflexivity.
  - change (String.concat (String JsText.LF EmptyString) (l :: l2 :: lines))
      with (l ++ String JsText.LF
                   (String.concat (String JsText.LF EmptyString) (l2 :: lines)))%string.
    destruct (split_lines_line l
                (String.concat (String JsText.LF EmptyString) (l2 :: lines)) Hl)
      as (piece & E & Hp).
    rewrite E. cbn [map]. rewrite IH by (congruence || exact Hls).
    f_equal. destruct Hp as [-> | ->]; [reflexivity|].
    symmetry; apply trim_snoc_space; reflexivity.
Qed.

(** X19. For a source body written one entry per line, with lines ended
    by LF or by CR LF, the domain list is the list of the lines without
    their surrounding white space, blank lines left out. *)
Theorem domain_list_of_lines (lines : list string) :
  Forall (fun l => contains_char JsText.LF l = false) lines ->
  parse_domains (String.concat (String JsText.LF EmptyString) lines)
  = filter JsText.truthy (map JsText.trim lines).
Proof.
  intros F. unfold parse_domains.
  destruct lines as [|l lines]; [reflexivity|].
  rewrite trimmed_lines; [reflexivity | discriminate | exact F].
Qed.

Lemma domain_list_of_lines_witness :
  parse_domains
    (String.concat (String JsText.LF EmptyString)
       [("a.com" ++ String JsText.CR EmptyString)%string; "  b.com "; ""; "c.org"])
  = ["a.com"; "b.com"; "c.org"].
Proof.
  rewrite (domain_list_of_lines
             [("a.com" ++ String JsText.CR EmptyString)%string; "  b.com "; "";
              "c.org"]).
  - reflexivity.
  - repeat constructor.
Defined.

(** ** [split] and [srcset] *)

Lemma string_app_assoc (a b c : string) :
  ((a ++ b) ++ c = a ++ (b ++ c))%string.
Proof. induction a as [|x a IH]; simpl; [reflexivity | rewrite IH; reflexivity]. Qed.

Lemma string_app_nil_r (a : string) : (a ++ "" = a)%string.
Proof. induction a as [|x a IH]; simpl; [reflexivity | rewrite IH; reflexivity]. Qed.

Lemma contains_char_app x a b :
  contains_char x (a ++ b) = (contains_char x a || contains_char x b)%bool.
Proof.
  induction a as [|c a IH]; simpl; [reflexivity|].
  rewrite IH, orb_assoc; reflexivity.
Qed.

Lemma split_cons sep s : exists piece pieces, JsText.split sep s = piece :: pieces.
Proof.
  induction s as [|c s (p & ps & IH)]; simpl; [eauto|].
  destruct (Ascii.eqb c sep); [eauto|]. rewrite IH; eauto.
Qed.

(** The pieces contain no character that the string does not contain,
    and never the separator. *)
Lemma split_pieces x sep s :
  Forall (fun piece =>
            contains_char sep piece = false /\
            (contains_char x s = false -> contains_char x piece = false))
         (JsText.split sep s).
Proof.
  induction s as [|c s IH]; simpl; [repeat constructor|].
  destruct (Ascii.eqb c sep) eqn:E.
  - constructor; [split; reflexivity|].
    eapply Forall_impl; [|exact IH]. simpl; intros p [P1 P2].
    split; [exact P1|]. intros H; apply P2.
    apply orb_false_iff in H as [_ H]; exact H.
  - destruct (JsText.split sep s) as [|p ps]; [repeat constructor; simpl|].
    + rewrite E; reflexivity.
    + intros H; apply orb_false_iff in H as [H _]; rewrite H; reflexivity.
    + inversion IH as [|? ? [P1 P2] Hps]; subst. constructor.
      * split; [simpl; rewrite E, P1; reflexivity|].
        intros H; apply orb_false_iff in H as [H1 H2].
        simpl; rewrite H1, (P2 H2); reflexivity.
      * eapply Forall_impl; [|exact Hps]. simpl; intros q [Q1 Q2].
        split; [exact Q1|]. intros H; apply Q2.
        apply orb_false_iff in H as [_ H]; exact H.
Qed.

Lemma split_one sep p :
  contains_char sep p = false -> JsText.split sep p = [p].
Proof.
  induction p as [|c p IH]; simpl; [reflexivity|].
  intros H; apply orb_false_iff in H as [H1 H2].
  rewrite H1, (IH H2); reflexivity.
Qed.

Lemma split_app sep p rest :
  contains_char sep p = false ->
  JsText.split sep (p ++ String sep rest) = p :: JsText.split sep rest.
Proof.
  induction p as [|c p IH]; simpl.
  - intros _; rewrite Ascii.eqb_refl; reflexivity.
  - intros H; apply orb_false_iff in H as [H1 H2].
    rewrite H1, (IH H2); reflexivity.
Qed.

(** The URL of one part of a [srcset] contains neither a space nor,
    since the part has none, a comma. *)
Lemma srcset_url_clean part :
  contains_char ","%char part = false ->
  contains_char " "%char (srcset_url part) = false /\
  contains_char ","%char (srcset_url part) = false.
Proof.
  intros H. unfold srcset_url.
  pose proof (split_pieces ","%char " "%char (JsText.trim part)) as F.
  destruct (JsText.split " "%char (JsText.trim part)) as [|p ps];
    [split; reflexivity|].
  inversion F as [|? ? [P1 P2] _]; subst. simpl.
  split; [exact P1 | apply P2, contains_char_trim, H].
Qed.

(** X20. Every URL taken from a [srcset] attribute is a non-empty
    string that contains neither a comma nor a space. *)
Theorem srcset_urls_are_clean (srcset : string) :
  Forall (fun u => u <> EmptyString /\
                   contains_char ","%char u = false /\
                   contains_char " "%char u = false)
         (srcset_urls srcset).
Proof.
  unfold srcset_urls. apply Forall_forall; intros u Hu.
  apply filter_In in Hu as [Hin Ht].
  apply in_map_iff in Hin as (part & <- & Hp).
  pose proof (split_pieces ","%char ","%char srcset) as F.
  rewrite Forall_forall in F. destruct (F part Hp) as [Hc _].
  destruct (srcset_url_clean part Hc) as [S1 S2].
  split; [|split; assumption].
  unfold JsText.truthy in Ht. intros E; rewrite E in Ht; discriminate.
Qed.

Lemma url_chars_no_space_no_comma u :
  forall_chars url_char u = true ->
  contains_char " "%char u = false /\ contains_char ","%char u = false.
Proof.
  induction u as [|c u IH]; simpl; [auto|].
  intros H; apply andb_true_iff in H as [Hc Hu].
  destruct (IH Hu) as [I1 I2]. rewrite I1, I2.
  unfold url_char in Hc. apply andb_true_iff in Hc as [Hs Hk].
  apply negb_true_iff in Hs, Hk. rewrite Hk.
  destruct (Ascii.eqb_spec c " "%char) as [-> | _]; [discriminate Hs | auto].
Qed.

Lemma trimEnd_url_chars u x :
  forall_chars url_char u = true ->
  JsText.trimEnd (u ++ x) = (u ++ JsText.trimEnd x)%string.
Proof.
  induction u as [|c u IH]; simpl append; [reflexivity|].
  cbn [forall_chars]. intros H; apply andb_true_iff in H as [Hc Hu].
  unfold url_char in Hc. apply andb_true_iff in Hc as [Hs _].
  apply negb_true_iff in Hs.
  rewrite (trimEnd_nonspace c _ Hs), (IH Hu); reflexivity.
Qed.

Lemma trimStart_spaces ws x :
  forall_chars JsText.is_space ws = true ->
  JsText.trimStart (ws ++ x) = JsText.trimStart x.
Proof.
  induction ws as [|c ws IH]; simpl; [reflexivity|].
  intros H; apply andb_true_iff in H as [-> Hw]. exact (IH Hw).
Qed.

(** The URL of a part made of white space and a candidate is the
    candidate's URL. *)
Lemma srcset_url_candidate ws (c : string * option string) :
  forall_chars JsText.is_space ws = true ->
  fst c <> EmptyString ->
  forall_chars url_char (fst c) = true ->
  srcset_url (ws ++ srcset_candidate c) = fst c.
Proof.
  destruct c as [u d]; simpl fst. intros Hw Hne Hu.
  destruct (url_chars_no_space_no_comma u Hu) as [Hsp _].
  assert (Hstart : forall x, JsText.trimStart (u ++ x) = (u ++ x)%string).
  { intros x. destruct u as [|a u]; [congruence|]. simpl.
    cbn [forall_chars] in Hu. apply andb_true_iff in Hu as [Ha _].
    unfold url_char in Ha. apply andb_true_iff in Ha as [Ha _].
    apply negb_true_iff in Ha. rewrite Ha; reflexivity. }
  unfold srcset_url, JsText.trim, srcset_candidate; simpl snd; simpl fst.
  rewrite (trimStart_spaces ws _ Hw).
  destruct d as [d|].
  - rewrite Hstart, (trimEnd_url_chars u _ Hu).
    change (" " ++ d)%string with (String " "%char d).
    simpl JsText.trimEnd. destruct (JsText.trimEnd d) as [|a t].
    + simpl. rewrite string_app_nil_r, (split_one _ _ Hsp); reflexivity.
    + rewrite (split_app " "%char u _ Hsp); reflexivity.
  - rewrite <- (string_app_nil_r u) at 1.
    rewrite Hstart, (trimEnd_url_chars u _ Hu). simpl JsText.trimEnd.
    rewrite string_app_nil_r, (split_one _ _ Hsp); reflexivity.
Qed.

Lemma srcset_candidate_no_comma (c : string * option string) :
  forall_chars url_char (fst c) = true ->
  match snd c with
  | Some d => contains_char ","%char d = false
  | None => True
  end ->
  contains_char ","%char (srcset_candidate c) = false.
Proof.
  destruct c as [u [d|]]; simpl; intros Hu Hd.
  - unfold srcset_candidate; simpl.
    rewrite contains_char_app. simpl.
    rewrite (proj2 (url_chars_no_space_no_comma u Hu)), Hd; reflexivity.
  - exact (proj2 (url_chars_no_space_no_comma u Hu)).
Qed.

(** Splitting a list written with [", "] between its parts. *)
Lemma split_comma_list parts : forall pre,
  parts <> [] ->
  contains_char ","%char pre = false ->
  Forall (fun p => contains_char ","%char p = false) parts ->
  JsText.split ","%char (pre ++ String.concat ", " parts)
  = (pre ++ hd EmptyString parts)%string
    :: map (fun p => (" " ++ p)%string) (tl parts).
Proof.
  induction parts as [|p parts IH]; [congruence|].
  intros pre _ Hpre F. inversion F as [|? ? Hp Hps]; subst.
  destruct parts as [|q parts].
  - simpl. apply split_one. rewrite contains_char_app, Hpre, Hp; reflexivity.
  - change (String.concat ", " (p :: q :: parts))
      with (p ++ String ","%char (" " ++ String.concat ", " (q :: parts)))%string.
    rewrite <- string_app_assoc.
    rewrite split_app by (rewrite contains_char_app, Hpre, Hp; reflexivity).
    rewrite (IH " "%string) by (congruence || assumption || reflexivity).
    reflexivity.
Qed.

(** X21. For a [srcset] written as candidates separated by a comma and
    a space, each candidate a URL alone or a URL, a space and a
    descriptor, the URLs taken are the candidates' URLs in order -
    provided each URL is non-empty and free of white space and commas,
    and no descriptor contains a comma. *)
Theorem srcset_urls_of_candidates (candidates : list (string * option string)) :
  Forall (fun c => fst c <> EmptyString /\
                   forall_chars url_char (fst c) = true /\
                   match snd c with
                   | Some d => contains_char ","%char d = false
                   | None => True
                   end) candidates ->
  srcset_urls (String.concat ", " (map srcset_candidate candidates))
  = map fst candidates.
Proof.
  intros F. unfold srcset_urls.
  destruct candidates as [|c cs]; [reflexivity|].
  assert (Fc : Forall (fun p => contains_char ","%char p = false)
                      (map srcset_candidate (c :: cs))).
  { apply Forall_forall; intros p Hp.
    apply in_map_iff in Hp as (x & <- & Hx).
    rewrite Forall_forall in F. destruct (F x Hx) as (_ & Hu & Hd).
    apply srcset_candidate_no_comma; assumption. }
  pose proof (split_comma_list (map srcset_candidate (c :: cs)) ""%string
                ltac:(discriminate) eq_refl Fc) as E.
  change (JsText.split ","%char
            (String.concat ", " (map srcset_candidate (c :: cs)))
          = srcset_candidate c
            :: map (fun p => (" " ++ p)%string) (map srcset_candidate cs)) in E.
  rewrite E. cbn [map].
  inversion F as [|? ? (Hne & Hu & _) Fcs]; subst.
  pose proof (srcset_url_candidate ""%string c eq_refl Hne Hu) as U0.
  change ("" ++ srcset_candidate c)%string with (srcset_candidate c) in U0.
  rewrite U0.
  cbn [filter]. unfold JsText.truthy at 1.
  destruct (String.eqb_spec (fst c) "") as [E0 | _]; [contradiction|].
  simpl negb. cbv iota. f_equal.
  clear E Fc F Hne Hu U0 c.
  induction cs as [|c cs IH]; [reflexivity|].
  inversion Fcs as [|? ? (Hne & Hu & _) Fcs']; subst.
  cbn [map filter].
  rewrite (srcset_url_candidate " "%string c eq_refl Hne Hu).
  unfold JsText.truthy at 1.
  destruct (String.eqb_spec (fst c) "") as [E0 | _]; [contradiction|].
  simpl negb. cbv iota. f_equal. exact (IH Fcs').
Qed.

Lemma srcset_urls_of_candidates_witness :
  srcset_urls "img/a-320.png 320w, img/a-640.png 640w, img/a.png"
  = ["img/a-320.png"; "img/a-640.png"; "img/a.png"].
Proof.
  apply (srcset_urls_of_candidates
           [("img/a-320.png", Some "320w"); ("img/a-640.png", Some "640w");
            ("img/a.png", None)]).
  repeat constructor; discriminate.
Defined.

(** ** The export of the results *)

Lemma split_join sep parts :
  parts <> [] ->
  Forall (fun p => contains_char sep p = false) parts ->
  JsText.split sep (String.concat (String sep EmptyString) parts) = parts.
Proof.
  induction parts as [|p parts IH]; [congruence|].
  intros _ F. inversion F as [|? ? Hp Hps]; subst.
  destruct parts as [|q parts].
  - simpl. apply split_one, Hp.
  - change (String.concat (String sep EmptyString) (p :: q :: parts))
      with (p ++ String sep
                   (String.concat (String sep EmptyString) (q :: parts)))%string.
    rewrite (split_app sep p _ Hp), IH by (congruence || assumption).
    reflexivity.
Qed.

(** X22. For a job, [/results] sends the result URLs one per line: the
    body is empty when there is no result, and otherwise splitting it at
    the line feeds gives back the result URLs in insertion order, as long
    as no URL contains a line feed. *)
Theorem results_export_is_one_url_per_line (Evt : Type) jobId job
    (s : Index.Server Evt) :
  Index.JOBS s jobId = Some job ->
  Forall (fun u => contains_char JsText.LF u = false) (Index.results job) ->
  exists body,
    Index.results_get jobId s = Index.Text body /\
    (Index.results job = [] -> body = EmptyString) /\
    (Index.results job <> [] ->
     JsText.split JsText.LF body = Index.results job).
Proof.
  unfold Index.results_get. intros -> F.
  eexists; split; [reflexivity|]. split.
  - intros ->; reflexivity.
  - intros Hne; apply split_join; assumption.
Qed.

Lemma results_export_is_one_url_per_line_witness :
  exists body,
    Index.results_get "job"
      (Index.set_job "job"
         (Index.mkJob Index.done ([] : list nat)
            ["http://a.com/x.png"; "http://a.com/y.png"] None)
         (Index.mkServer (fun _ => None) []))
    = Index.Text body /\
    JsText.split JsText.LF body = ["http://a.com/x.png"; "http://a.com/y.png"].
Proof.
  destruct (results_export_is_one_url_per_line nat "job"
              (Index.mkJob Index.done ([] : list nat)
                 ["http://a.com/x.png"; "http://a.com/y.png"] None)
              (Index.set_job "job"
                 (Index.mkJob Index.done ([] : list nat)
                    ["http://a.com/x.png"; "http://a.com/y.png"] None)
                 (Index.mkServer (fun _ => None) []))
              eq_refl ltac:(repeat constructor))
    as (body & E & _ & S).
  exists body; split; [exact E|].
  apply S; discriminate.
Defined.

(** ** Where forwarded images come from *)

Section ImageFacts.

Variable W : World.
Variable opts : Options.
Variable browser : Browser.
Variable host : string.

(** With budget left and an unseen entry at the head of the queue, that
    entry is processed first. *)
Lemma Run_first st st' l e rest :
  Run W opts browser host st st' l ->
  toVisit st = e :: rest ->
  JsSet.has (seen st) (url e) = false ->
  pagesVisited st < maxPagesPerDomain opts ->
  exists more, processed l = url e :: more.
Proof.
  intros R Hq Hs Hp.
  destruct R as [st C | st st1 l1 st2 l2 C I R].
  - unfold loop_cond in C; rewrite Hq in C; simpl in C.
    apply Z.ltb_lt in Hp; rewrite Hp in C; discriminate.
  - destruct (iteration_log W opts browser host st st1 l1 C I)
      as (e' & rest' & Hq' & _ & _ & [(Hs' & _) | (_ & _ & Pr & _)]);
      rewrite Hq in Hq'; injection Hq' as <- <-; [congruence|].
    rewrite processed_app, Pr; simpl; eauto.
Qed.

End ImageFacts.

(** X23. Every image URL that a traversal forwards is a reference that
    the extractor found in the content of a processed page, resolved
    against that page's URL by [normalizeUrl]. *)
Theorem forwarded_images_come_from_processed_pages W opts browser domain :
  (exists fuel st l, handleDomain W opts browser fuel domain = Some (st, l)) /\
  (forall fuel st l,
     handleDomain W opts browser fuel domain = Some (st, l) ->
     forall u, In u (found_images l) ->
     exists e h img,
       In (url e) (processed l) /\
       page_content W browser (JsString.toLowerCase domain) e = Some h /\
       In img (fst (extractImagesAndLinks W h (url e))) /\
       u = normalizeUrl W img (url e)).
Proof.
  split; [apply handleDomain_returns|].
  intros fuel st l H u Hu.
  apply handleDomain_Run in H as (l0 & -> & R).
  rewrite found_images_app in Hu; simpl in Hu; rewrite app_nil_r in Hu.
  rewrite processed_done.
  exact (Run_found_from_page _ _ _ _ _ _ _ R u Hu).
Qed.

Lemma forwarded_images_come_from_processed_pages_witness :
  exists st l,
    handleDomain Web.logo_web Web.defaults Web.viewer 1 "example.com"
    = Some (st, l) /\
    In "http://example.com/logo.png" (found_images l) /\
    exists e h img,
      In (url e) (processed l) /\
      page_content Web.logo_web Web.viewer (JsString.toLowerCase "example.com") e
      = Some h /\
      In img (fst (extractImagesAndLinks Web.logo_web h (url e))) /\
      "http://example.com/logo.png" = normalizeUrl Web.logo_web img (url e).
Proof.
  eexists _, _; split; [vm_compute; reflexivity|].
  split; [vm_compute; left; reflexivity|].
  refine (proj2 (forwarded_images_come_from_processed_pages Web.logo_web
                   Web.defaults Web.viewer "example.com") 1%nat _ _ _
            "http://example.com/logo.png" _);
    [vm_compute; reflexivity | vm_compute; left; reflexivity].
Defined.

(** X24. With a positive page budget a traversal always starts with the
    seed: the first page processed is [http://domain], and the first
    request is for it. *)
Theorem seed_is_processed_first W opts browser domain :
  0 < maxPagesPerDomain opts ->
  (exists fuel st l, handleDomain W opts browser fuel domain = Some (st, l)) /\
  (forall fuel st l,
     handleDomain W opts browser fuel domain = Some (st, l) ->
     exists more,
       processed l = ("http://" ++ domain)%string :: more /\
       fetched l = fetch_url W ("http://" ++ domain)%string
                   :: map (fetch_url W) more).
Proof.
  intros Hmax; split; [apply handleDomain_returns|].
  intros fuel st l H.
  apply handleDomain_Run in H as (l0 & -> & R).
  rewrite processed_done, fetched_done.
  destruct (Run_first _ _ _ _ _ _ _ _ _ R eq_refl eq_refl Hmax) as [more E].
  destruct (Run_processed _ _ _ _ _ _ _ R) as (_ & _ & _ & Hf).
  exists more; split; [exact E|]. rewrite Hf, E; reflexivity.
Qed.

Lemma seed_is_processed_first_witness :
  0 < maxPagesPerDomain Web.defaults /\
  exists st l,
    handleDomain Web.dead_web Web.defaults None 1 "example.com" = Some (st, l) /\
    exists more,
      processed l = "http://example.com" :: more /\
      fetched l = fetch_url Web.dead_web "http://example.com"
                  :: map (fetch_url Web.dead_web) more.
Proof.
  split; [simpl; lia|].
  eexists _, _; split; [vm_compute; reflexivity|].
  eapply (proj2 (seed_is_processed_first Web.dead_web Web.defaults None
                   "example.com" ltac:(simpl; lia)) 1%nat).
  vm_compute; reflexivity.
Defined.
